(** * space_visualiser: the recursive size walk of [main.go]

    A shallow embedding of [getDirSize] and [visualise] (both the current
    version of [main.go] with the ignore-regexp and the earlier version
    without it), together with the properties of the walk.

    - [int64] values are [Z] with two's complement wrap-around written out
      ([wrap64]).
    - The file system is given as the tree of what [os.ReadDir] and
      [DirEntry.Info] return: both return a value together with an error,
      and both components are kept.
    - [fmt.Println] / [fmt.Printf] append events to [stdout], [log.Printf]
      appends its message to [stderr] (the date and time the standard logger
      writes before each message are not kept); a run-time panic (method
      call on a nil interface) ends the computation with [None] and keeps
      what was written so far. *)

From Stdlib Require Import ZArith List String Bool Lia DecimalString.
From Stdlib Require Import Sorted Permutation.
Import ListNotations.
Open Scope string_scope.
Open Scope Z_scope.

(** ** Machine integers *)

Definition wrap64 (z : Z) : Z := (z + 2 ^ 63) mod 2 ^ 64 - 2 ^ 63.

Definition int64_range (z : Z) : Prop := - 2 ^ 63 <= z < 2 ^ 63.

(** [a + b] on [int64] (also used for [int], 64 bits wide on amd64/arm64). *)
Definition add64 (a b : Z) : Z := wrap64 (a + b).

(** ** The world outside the program *)

(** The [%v] rendering of a Go [error]. *)
Definition error := string.

(** [fs.FileInfo]: only [Size()] is used. *)
Record FileInfo := mkFileInfo { Size : Z }.

(** A directory entry as [os.ReadDir] lists it, with what the later calls on
    it return: [Regular] carries the pair returned by [entry.Info()] (the
    [FileInfo] is [None] when the interface value is nil), [Dir] carries the
    pair returned by [os.ReadDir] on its full path, [Other] is any entry that
    is neither regular nor a directory (symlink, device, socket ...). *)
Inductive DirEntry : Type :=
| Regular (name : string) (info : option FileInfo) (err : option error)
| Dir (name : string) (contents : Listing)
| Other (name : string)
with Listing : Type :=
| ReadDir (dirEntries : list DirEntry) (err : option error).

Definition Name (entry : DirEntry) : string :=
  match entry with
  | Regular name _ _ => name
  | Dir name _ => name
  | Other name => name
  end.

Definition IsRegular (entry : DirEntry) : bool :=
  match entry with Regular _ _ _ => true | _ => false end.

Definition IsDir (entry : DirEntry) : bool :=
  match entry with Dir _ _ => true | _ => false end.

(** The library functions the program calls. *)
Class Lib := {
  Regexp : Type;
  MatchString : Regexp -> string -> bool;        (* Regexp.MatchString *)
  Compile : string -> Regexp + error;            (* regexp.Compile *)
  Join : string -> string -> string;             (* filepath.Join *)
  ParseBigBytes : string -> Z + error;           (* humanize.ParseBigBytes *)
  BigBytes : Z -> string                         (* humanize.BigBytes *)
}.

(** ** Output *)

(** One call of the [fmt] package.  [Printf regular path size] is
    [fmt.Printf("%v: %v\n", path, humanize.BigBytes(big.NewInt(size)))];
    [regular] records [entry.Type().IsRegular()] of the entry the line is
    printed for and does not reach the text. *)
Inductive Out : Type :=
| Println
| Printf (regular : bool) (path : string) (size : Z).

Record World := mkWorld { stdout : list Out; stderr : list string }.

Definition emptyWorld : World := mkWorld [] [].

(** ** The monad of the program: state and panic *)

Definition M (A : Type) : Type := World -> World * option A.

Definition ret {A} (a : A) : M A := fun w => (w, Some a).

Definition bind {A B} (m : M A) (k : A -> M B) : M B :=
  fun w => match m w with
           | (w', Some a) => k a w'
           | (w', None) => (w', None)
           end.

Definition panic {A} : M A := fun w => (w, None).

Definition emit (o : Out) : M unit :=
  fun w => (mkWorld (stdout w ++ [o]) (stderr w), Some tt).

(** [log.Printf]: [line] is the formatted message; on the log the standard
    logger writes the date and the time before it. *)
Definition logPrintf (line : string) : M unit :=
  fun w => (mkWorld (stdout w) (stderr w ++ [line]), Some tt).

Definition when (b : bool) (m : M unit) : M unit := if b then m else ret tt.

Declare Scope go_scope.
Delimit Scope go_scope with go.
Notation "x <- m ;; k" := (bind m (fun x => k))
  (at level 61, m at next level, right associativity) : go_scope.
Notation "m ;; k" := (bind m (fun _ => k))
  (at level 61, right associativity) : go_scope.
Open Scope go_scope.

Section ForEach.
Context {A S : Type}.
Variable body : S -> A -> M S.

(** [for _, x := range xs { st = body(st, x) }] *)
Fixpoint forEach (xs : list A) (st : S) : M S :=
  match xs with
  | [] => ret st
  | x :: xs' => st' <- body st x ;; forEach xs' st'
  end.
End ForEach.

(** The variables a loop of [getDirSize] carries from entry to entry. *)
Record Loop := mkLoop {
  dirSize : Z;
  filesPrintedInThisDir : Z;
  shouldPrintAClosingNewLine : bool
}.

(** How the [switch] of the loop body ends: with [continue], or by falling
    out of it with [entrySize] and the flag. *)
Inductive Switch : Type :=
| Continue
| Proceed (entrySize : Z) (closing : bool).

(** ** The command line *)

Definition rootDirDefault : string := "/".
Definition sizeThresholdDefault : string := "100MB".
Definition ignoreDirRegexpDefault : string := "".

(** The flags [-d], [-s] and [-i] as given on the command line ([None]: not
    given). *)
Record Flags := mkFlags {
  flag_d : option string;
  flag_s : option string;
  flag_i : option string
}.

(** [*flag.String(name, value, usage)] after [flag.Parse]. *)
Definition flagString (given : option string) (value : string) : string :=
  match given with
  | Some s => s
  | None => value
  end.

(** How [main] ends: by returning, or through [os.Exit]. *)
Inductive Exit : Type :=
| Returned
| Exited (code : Z).


Module Current.
Section Walk.
Context `{Lib}.

Record visualiser := mkVisualiser {
  sizeThreshold : Z;
  ignoreRegexp : option Regexp
}.

(** [sizeThresholdParsed.Int64()] keeps the low 64 bits of the parsed
    [big.Int]. *)
Definition newVisualiser (sizeThreshold ignoreRegexp : string)
  : visualiser + error :=
  match ParseBigBytes sizeThreshold with
  | inr err =>
      inr ("invalid size threshold '" ++ sizeThreshold ++ "': " ++ err)
  | inl sizeThresholdParsed =>
      if String.eqb ignoreRegexp "" then
        inl (mkVisualiser (wrap64 sizeThresholdParsed) None)
      else
        match Compile ignoreRegexp with
        | inr err =>
            inr ("could not compile regexp '" ++ ignoreRegexp ++ "': " ++ err)
        | inl ignoreRegexpParsed =>
            inl (mkVisualiser (wrap64 sizeThresholdParsed)
                              (Some ignoreRegexpParsed))
        end
  end.

Definition shouldSkipDir (v : visualiser) (dir : string) : bool :=
  match ignoreRegexp v with
  | Some re => MatchString re dir
  | None => false
  end.

Section Body.
Variable getDirSize : string -> Listing -> M (Z * Z * option error).
Variable v : visualiser.
Variable dir : string.

Definition switch (st : Loop) (entry : DirEntry) : M Switch :=
  let fullPath := Join dir (Name entry) in
  match entry with
  | Regular _ info err =>
      match info with
      | None => panic
      | Some fi =>
          let entrySize := Size fi in
          match err with
          | Some e =>
              logPrintf ("error: could not get info for file "
                         ++ fullPath ++ ": " ++ e) ;;
              logPrintf ("warning: file " ++ fullPath
                         ++ " will not be included in calculations") ;;
              ret Continue
          | None => ret (Proceed entrySize (shouldPrintAClosingNewLine st))
          end
      end
  | Dir _ contents =>
      if shouldSkipDir v fullPath then
        logPrintf ("warning: ignoring directory '" ++ fullPath
                   ++ "' due to matched ignore-regexp") ;;
        ret Continue
      else
        r <- getDirSize fullPath contents ;;
        let '(entrySize, filesPrintedInThisEntry, err) := r in
        match err with
        | Some e =>
            logPrintf ("error: could not read contents of directory "
                       ++ dir ++ ": " ++ e) ;;
            logPrintf ("warning: will skip directory " ++ dir
                       ++ " in calculations") ;;
            ret Continue
        | None =>
            ret (Proceed entrySize
                   (if filesPrintedInThisEntry >? 0 then true
                    else shouldPrintAClosingNewLine st))
        end
  | Other _ => ret (Proceed 0 (shouldPrintAClosingNewLine st))
  end.

Definition report (st : Loop) (entry : DirEntry)
           (entrySize : Z) (closing : bool) : M Loop :=
  let fullPath := Join dir (Name entry) in
  printed <-
    (if entrySize >? sizeThreshold v then
       when (IsRegular entry && (filesPrintedInThisDir st =? 0)) (emit Println) ;;
       emit (Printf (IsRegular entry) fullPath entrySize) ;;
       when closing (emit Println) ;;
       ret (if IsRegular entry then add64 (filesPrintedInThisDir st) 1
            else filesPrintedInThisDir st)
     else ret (filesPrintedInThisDir st)) ;;
  ret (mkLoop (add64 (dirSize st) entrySize) printed closing).

Definition loopBody (st : Loop) (entry : DirEntry) : M Loop :=
  s <- switch st entry ;;
  match s with
  | Continue => ret st
  | Proceed entrySize closing => report st entry entrySize closing
  end.
End Body.

Fixpoint getDirSize (v : visualiser) (dir : string) (l : Listing) {struct l}
  : M (Z * Z * option error) :=
  match l with
  | ReadDir dirEntries err =>
      match err with
      | Some e =>
          logPrintf ("error: could not read contents of directory "
                     ++ dir ++ ": " ++ e) ;;
          logPrintf ("warning: will skip directory " ++ dir
                     ++ " in calculations") ;;
          ret (0, 0, None)
      | None =>
          st <- forEach (loopBody (getDirSize v) v dir) dirEntries
                        (mkLoop 0 0 false) ;;
          ret (dirSize st, filesPrintedInThisDir st, None)
      end
  end.

Definition visualise (v : visualiser) (dir : string) (l : Listing) : M unit :=
  r <- getDirSize v dir l ;;
  let '(dirSize, _, err) := r in
  match err with
  | Some e =>
      logPrintf ("error: could not visualise directory " ++ dir ++ ": " ++ e)
  | None =>
      if dirSize >? sizeThreshold v then
        emit (Printf false dir dirSize) ;;
        emit Println
      else ret tt
  end.

(** [main], after [flag.Parse]: [args] holds the values given on the command
    line, [tree] what the file system holds under each path.
    [log.Fatalf] logs and ends the process with status 1. *)
Definition main (args : Flags) (tree : string -> Listing) : M Exit :=
  let rootDir := flagString (flag_d args) rootDirDefault in
  let sizeThreshold := flagString (flag_s args) sizeThresholdDefault in
  let ignoreDirRegexp := flagString (flag_i args) ignoreDirRegexpDefault in
  match newVisualiser sizeThreshold ignoreDirRegexp with
  | inr err => logPrintf err ;; ret (Exited 1)
  | inl visualiser =>
      visualise visualiser rootDir (tree rootDir) ;;
      ret Returned
  end.
End Walk.
End Current.

(** ** The earlier version of the walk (no ignore-regexp; the threshold is an
    argument of [getDirSize]) *)

Module Earlier.
Section Walk.
Context `{Lib}.

Record visualiser := mkVisualiser { sizeThreshold : Z }.

Definition newVisualiser (sizeThreshold : Z) : visualiser :=
  mkVisualiser sizeThreshold.

Section Body.
Variable getDirSize : string -> Z -> Listing -> M (Z * Z * option error).
Variable dir : string.
Variable sizeThreshold : Z.

Definition switch (st : Loop) (entry : DirEntry) : M Switch :=
  let fullPath := Join dir (Name entry) in
  match entry with
  | Regular _ info err =>
      match info with
      | None => panic
      | Some fi =>
          let entrySize := Size fi in
          match err with
          | Some e =>
              logPrintf ("error: could not get info for file "
                         ++ fullPath ++ ": " ++ e) ;;
              logPrintf ("warning: file " ++ fullPath
                         ++ " will not be included in calculations") ;;
              ret Continue
          | None => ret (Proceed entrySize (shouldPrintAClosingNewLine st))
          end
      end
  | Dir _ contents =>
      r <- getDirSize fullPath sizeThreshold contents ;;
      let '(entrySize, filesPrintedInThisEntry, err) := r in
      match err with
      | Some e =>
          logPrintf ("error: could not read contents of directory "
                     ++ dir ++ ": " ++ e) ;;
          logPrintf ("warning: will skip directory " ++ dir
                     ++ " in calculations") ;;
          ret Continue
      | None =>
          ret (Proceed entrySize
                 (if filesPrintedInThisEntry >? 0 then true
                  else shouldPrintAClosingNewLine st))
      end
  | Other _ => ret (Proceed 0 (shouldPrintAClosingNewLine st))
  end.

Definition report (st : Loop) (entry : DirEntry)
           (entrySize : Z) (closing : bool) : M Loop :=
  let fullPath := Join dir (Name entry) in
  printed <-
    (if entrySize >? sizeThreshold then
       when (IsRegular entry && (filesPrintedInThisDir st =? 0)) (emit Println) ;;
       emit (Printf (IsRegular entry) fullPath entrySize) ;;
       when closing (emit Println) ;;
       ret (if IsRegular entry then add64 (filesPrintedInThisDir st) 1
            else filesPrintedInThisDir st)
     else ret (filesPrintedInThisDir st)) ;;
  ret (mkLoop (add64 (dirSize st) entrySize) printed closing).

Definition loopBody (st : Loop) (entry : DirEntry) : M Loop :=
  s <- switch st entry ;;
  match s with
  | Continue => ret st
  | Proceed entrySize closing => report st entry entrySize closing
  end.
End Body.

Fixpoint getDirSize (dir : string) (sizeThreshold : Z) (l : Listing) {struct l}
  : M (Z * Z * option error) :=
  match l with
  | ReadDir dirEntries err =>
      match err with
      | Some e =>
          logPrintf ("error: could not read contents of directory "
                     ++ dir ++ ": " ++ e) ;;
          logPrintf ("warning: will skip directory " ++ dir
                     ++ " in calculations") ;;
          ret (0, 0, None)
      | None =>
          st <- forEach (loopBody getDirSize dir sizeThreshold) dirEntries
                        (mkLoop 0 0 false) ;;
          ret (dirSize st, filesPrintedInThisDir st, None)
      end
  end.

Definition visualise (v : visualiser) (dir : string) (l : Listing) : M unit :=
  r <- getDirSize dir (sizeThreshold v) l ;;
  let '(dirSize, _, err) := r in
  match err with
  | Some e =>
      logPrintf ("error: could not visualise directory " ++ dir ++ ": " ++ e)
  | None =>
      if dirSize >? sizeThreshold v then
        emit (Printf false dir dirSize) ;;
        emit Println
      else ret tt
  end.

(** [main] of the earlier version; it has no [-i] flag and parses the
    threshold itself. *)
Definition main (args : Flags) (tree : string -> Listing) : M Exit :=
  let rootDir := flagString (flag_d args) rootDirDefault in
  let sizeThreshold := flagString (flag_s args) sizeThresholdDefault in
  match ParseBigBytes sizeThreshold with
  | inr err =>
      logPrintf ("invalid size threshold '" ++ sizeThreshold ++ "': " ++ err) ;;
      ret (Exited 1)
  | inl sizeThresholdParsed =>
      let visualiser := newVisualiser (wrap64 sizeThresholdParsed) in
      visualise visualiser rootDir (tree rootDir) ;;
      ret Returned
  end.
End Walk.
End Earlier.

(** ** The text on standard output *)

Definition newline : string :=
  String (Ascii.Ascii false true false true false false false false) "".

Definition render `{Lib} (o : Out) : string :=
  match o with
  | Println => newline
  | Printf _ path size => path ++ ": " ++ BigBytes size ++ newline
  end.

Definition stdoutText `{Lib} (w : World) : string :=
  fold_right (fun o text => render o ++ text) "" (stdout w).

(** ** A stand-in for the libraries, to run the walk on concrete trees

    Patterns are anchored prefixes ([^/root/tmp] is written [/root/tmp]),
    paths are joined with a slash, sizes are shown as a byte count. *)

Definition showBytes (z : Z) : string :=
  (if z <? 0 then "-" else "") ++
  NilEmpty.string_of_uint (N.to_uint (Z.abs_N z)) ++ " B".

Definition exampleLib : Lib := {|
  Regexp := string;
  MatchString := String.prefix;
  Compile := fun s => inl s;
  Join := fun dir name => dir ++ "/" ++ name;
  ParseBigBytes := fun s => inr ("strconv: cannot parse " ++ s);
  BigBytes := showBytes
|}.

Definition file (name : string) (size : Z) : DirEntry :=
  Regular name (Some (mkFileInfo size)) None.

Definition folder (name : string) (entries : list DirEntry) : DirEntry :=
  Dir name (ReadDir entries None).

Definition MB : Z := 1000000.

(** ** Vocabulary of the properties *)

Definition sumZ (l : list Z) : Z := fold_right Z.add 0 l.

(** [w] followed by what [d] holds. *)
Definition appendWorld (w d : World) : World :=
  mkWorld (stdout w ++ stdout d) (stderr w ++ stderr d).

(** A computation is [framed] when it only appends to the world it starts
    from, and what it appends and returns does not depend on that world. *)
Definition framed {A} (m : M A) : Prop :=
  forall w, m w = (appendWorld w (fst (m emptyWorld)), snd (m emptyWorld)).

Section Vocabulary.
Context `{Lib}.

(** What one entry adds to the size of its directory, in exact integers:
    the size of a regular file whose [Info] succeeded, the subtree of a
    subdirectory that is not ignored, nothing otherwise. *)
Definition entryTotal (treeSize : string -> Listing -> Z)
           (v : Current.visualiser) (dir : string) (e : DirEntry) : Z :=
  match e with
  | Regular _ (Some fi) None => Size fi
  | Regular _ _ _ => 0
  | Dir name contents =>
      if Current.shouldSkipDir v (Join dir name) then 0
      else treeSize (Join dir name) contents
  | Other _ => 0
  end.

(** The exact sum of the sizes of the regular files under a directory that
    are reached without crossing an ignored or an unreadable directory. *)
Fixpoint treeSize (v : Current.visualiser) (dir : string) (l : Listing) : Z :=
  match l with
  | ReadDir dirEntries (Some _) => 0
  | ReadDir dirEntries None =>
      sumZ (map (entryTotal (treeSize v) v dir) dirEntries)
  end.

(** Whether the walk reaches a regular file whose [Info] returns a nil
    [FileInfo]. *)
Definition entryReachesNilInfo (reachesNilInfo : string -> Listing -> bool)
           (v : Current.visualiser) (dir : string) (e : DirEntry) : bool :=
  match e with
  | Regular _ None _ => true
  | Regular _ (Some _) _ => false
  | Dir name contents =>
      negb (Current.shouldSkipDir v (Join dir name))
      && reachesNilInfo (Join dir name) contents
  | Other _ => false
  end.

Fixpoint reachesNilInfo (v : Current.visualiser) (dir : string) (l : Listing)
  : bool :=
  match l with
  | ReadDir dirEntries (Some _) => false
  | ReadDir dirEntries None =>
      existsb (entryReachesNilInfo (reachesNilInfo v) v dir) dirEntries
  end.

(** No regular file of the tree has a negative size. *)
Definition entryNonneg (sizesNonneg : Listing -> bool) (e : DirEntry) : bool :=
  match e with
  | Regular _ (Some fi) _ => 0 <=? Size fi
  | Regular _ None _ => true
  | Dir _ contents => sizesNonneg contents
  | Other _ => true
  end.

Fixpoint sizesNonneg (l : Listing) : bool :=
  match l with
  | ReadDir dirEntries _ => forallb (entryNonneg sizesNonneg) dirEntries
  end.

(** What [report] prints for one entry. *)
Definition reportOut (v : Current.visualiser) (dir : string) (st : Loop)
           (entry : DirEntry) (entrySize : Z) (closing : bool) : list Out :=
  if entrySize >? Current.sizeThreshold v then
    (if IsRegular entry && (filesPrintedInThisDir st =? 0)
     then [Println] else [])
    ++ [Printf (IsRegular entry) (Join dir (Name entry)) entrySize]
    ++ (if closing then [Println] else [])
  else [].

(** The printed-file counter after [report]. *)
Definition reportCount (v : Current.visualiser) (st : Loop)
           (entry : DirEntry) (entrySize : Z) : Z :=
  if (entrySize >? Current.sizeThreshold v) && IsRegular entry
  then add64 (filesPrintedInThisDir st) 1
  else filesPrintedInThisDir st.
End Vocabulary.

(** The sizes on the printed lines: all of them, and those of the lines
    printed for regular files. *)
Definition lineSize (o : Out) : Z :=
  match o with
  | Println => 0
  | Printf _ _ size => size
  end.

Definition regularLineSize (o : Out) : Z :=
  match o with
  | Printf true _ size => size
  | _ => 0
  end.

Definition printedBytes (out : list Out) : Z := sumZ (map lineSize out).

Definition regularBytes (out : list Out) : Z := sumZ (map regularLineSize out).

(** Every printed line shows a size above the threshold. *)
Definition aboveThreshold (sizeThreshold : Z) (o : Out) : Prop :=
  match o with
  | Println => True
  | Printf _ _ size => sizeThreshold < size
  end.

(** ** Induction over a directory tree *)

Section ListingInduction.
Variable P : Listing -> Prop.

Definition subdirs (e : DirEntry) : Prop :=
  match e with
  | Dir _ contents => P contents
  | _ => True
  end.

Hypothesis step :
  forall dirEntries err, Forall subdirs dirEntries -> P (ReadDir dirEntries err).

Fixpoint Listing_tree_ind (l : Listing) : P l :=
  match l with
  | ReadDir dirEntries err =>
      step dirEntries err
        ((fix children (es : list DirEntry) : Forall subdirs es :=
            match es with
            | [] => Forall_nil subdirs
            | e :: es' =>
                Forall_cons e
                  (match e return subdirs e with
                   | Dir _ contents => Listing_tree_ind contents
                   | _ => I
                   end)
                  (children es')
            end) dirEntries)
  end.
End ListingInduction.

(** ** Vocabulary of the further properties *)

Section WalkVocabulary.
Context `{Lib}.

(** The regular files the walk reaches with their sizes resolved, as pairs of
    full path and size, in the order of the walk. *)
Definition entryFiles (reachedFiles : string -> Listing -> list (string * Z))
           (v : Current.visualiser) (dir : string) (e : DirEntry)
  : list (string * Z) :=
  match e with
  | Regular name (Some fi) None => [(Join dir name, Size fi)]
  | Regular _ _ _ => []
  | Dir name contents =>
      if Current.shouldSkipDir v (Join dir name) then []
      else reachedFiles (Join dir name) contents
  | Other _ => []
  end.

Fixpoint reachedFiles (v : Current.visualiser) (dir : string) (l : Listing)
  : list (string * Z) :=
  match l with
  | ReadDir dirEntries (Some _) => []
  | ReadDir dirEntries None =>
      flat_map (entryFiles (reachedFiles v) v dir) dirEntries
  end.

Definition aboveThresholdFile (v : Current.visualiser) (f : string * Z) : bool :=
  snd f >? Current.sizeThreshold v.

(** The line printed for a regular file. *)
Definition fileLine (f : string * Z) : Out := Printf true (fst f) (snd f).

(** The lines printed for the files of a list that are above the threshold. *)
Definition printedFiles (v : Current.visualiser) (files : list (string * Z))
  : list Out :=
  map fileLine (filter (aboveThresholdFile v) files).

(** The regular files listed directly in a directory whose size is resolved
    and above the threshold. *)
Definition printsHere (v : Current.visualiser) (e : DirEntry) : bool :=
  match e with
  | Regular _ (Some fi) None => Size fi >? Current.sizeThreshold v
  | _ => false
  end.

Definition printedHere (v : Current.visualiser) (l : Listing) : Z :=
  match l with
  | ReadDir dirEntries (Some _) => 0
  | ReadDir dirEntries None => Z.of_nat (List.length (filter (printsHere v) dirEntries))
  end.
End WalkVocabulary.

Definition isRegularLine (o : Out) : bool :=
  match o with
  | Printf true _ _ => true
  | _ => false
  end.

(** The lines printed for regular files, in order. *)
Definition regularLines (out : list Out) : list Out := filter isRegularLine out.

(** A message given to the logger is tagged when it starts with [error: ] or
    [warning: ]. *)
Definition tagged (line : string) : bool :=
  String.prefix "error: " line || String.prefix "warning: " line.

Definition allTagged (w : World) : Prop :=
  Forall (fun line => tagged line = true) (stderr w).

(** The size on a line is at most [bound]. *)
Definition sizeAtMost (bound : Z) (o : Out) : Prop := lineSize o <= bound.

(** An entry that is neither a regular file nor a directory, or a directory
    whose listing fails. *)
Definition unreadableOrIrregular (e : DirEntry) : bool :=
  match e with
  | Other _ => true
  | Dir _ (ReadDir _ (Some _)) => true
  | _ => false
  end.

(** ** [os.ReadDir]

    [os.ReadDir] returns the entries of a directory sorted by file name,
    whatever the order in which the system enumerates them.  File names are
    distinct within a directory, so the sorted list is determined by the
    entries alone; it is computed here by insertion. *)

Fixpoint insertByName (e : DirEntry) (es : list DirEntry) : list DirEntry :=
  match es with
  | [] => [e]
  | e' :: es' =>
      if String.leb (Name e) (Name e') then e :: es
      else e' :: insertByName e es'
  end.

Definition sortByName (es : list DirEntry) : list DirEntry :=
  fold_right insertByName [] es.

(** What the walk reads when the disk holds [disk] and the system enumerates
    the entries of each directory in the order [enum] puts them: every
    listing, at every level, is one made by [os.ReadDir]. *)
Definition readEntry (readTree : Listing -> Listing) (e : DirEntry) : DirEntry :=
  match e with
  | Dir name contents => Dir name (readTree contents)
  | _ => e
  end.

Fixpoint readTree (enum : list DirEntry -> list DirEntry) (disk : Listing)
  : Listing :=
  match disk with
  | ReadDir entries err =>
      ReadDir (sortByName (enum (map (readEntry (readTree enum)) entries))) err
  end.

(** No two entries of a directory have the same name, at any level. *)
Fixpoint distinct (names : list string) : bool :=
  match names with
  | [] => true
  | name :: names' => negb (existsb (String.eqb name) names') && distinct names'
  end.

Definition entryUniqueNames (uniqueNames : Listing -> bool) (e : DirEntry) : bool :=
  match e with
  | Dir _ contents => uniqueNames contents
  | _ => true
  end.

Fixpoint uniqueNames (disk : Listing) : bool :=
  match disk with
  | ReadDir entries _ =>
      distinct (map Name entries)
      && forallb (entryUniqueNames uniqueNames) entries
  end.

(** [e1] comes no later than [e2] in the order of [os.ReadDir]. *)
Definition nameLe (e1 e2 : DirEntry) : Prop :=
  String.leb (Name e1) (Name e2) = true.

(** ** [humanize.BigBytes]

    The renderer of the go-humanize library that both [fmt.Printf] calls
    use.  A size below ten is printed as [<size> B].  Any other size is
    divided by 1000 as long as it is at least 1000 (eight times at most, one
    for each unit after B); the number of divisions selects the unit, and the last quotient [n] and remainder [m] give the
    number [n + m/1000], printed with one decimal when it is below ten and
    with none otherwise. *)

Definition siSizes : list string :=
  ["B"; "kB"; "MB"; "GB"; "TB"; "PB"; "EB"; "ZB"; "YB"].

(** The units of the binary renderer [humanize.BigIBytes], which the program
    does not call. *)
Definition iecSizes : list string :=
  ["B"; "KiB"; "MiB"; "GiB"; "TiB"; "PiB"; "EiB"; "ZiB"; "YiB"].

(** [oomm]: at most [left] more divisions of [n] by [base]; the result is the
    last quotient, the last remainder and the number of divisions. *)
Fixpoint oomm (left : nat) (base n m : Z) (mag : nat) : Z * Z * nat :=
  match left with
  | O => (n, m, mag)
  | S left' =>
      if n >=? base then oomm left' base (n / base) (n mod base) (S mag)
      else (n, m, mag)
  end.

Definition siUnit (size : Z) : string :=
  if size <? 10 then "B"
  else let '(_, _, mag) := oomm 8 1000 size 0 0 in nth mag siSizes "".

Definition decimal (z : Z) : string :=
  (if z <? 0 then "-" else "") ++
  NilEmpty.string_of_uint (N.to_uint (Z.abs_N z)).

(** [%.1f] of [n + m/1000] when [m] ends in 50: the exact value lies midway
    between two one-decimal numbers, and the digit printed is decided by the
    [float64] nearest to the sum.  For each [n] from 1 to 9, the tenths [t]
    at which [n + t/10 + 0.05] is printed rounded up. *)
Definition tiesRoundedUp : list (list Z) :=
  [ [];
    [0; 3; 5; 7; 8];
    [3; 4; 7; 8; 9]; [3; 4; 7; 8; 9];
    [1; 4; 6; 7; 9]; [1; 4; 6; 7; 9]; [1; 4; 6; 7; 9]; [1; 4; 6; 7; 9];
    [0; 1; 5; 6; 7]; [0; 1; 5; 6; 7] ].

Definition tieRoundsUp (n t : Z) : bool :=
  existsb (Z.eqb t) (nth (Z.to_nat n) tiesRoundedUp []).

Definition oneDecimal (n m : Z) : string :=
  let t := m / 100 in
  let r := m mod 100 in
  let tenths :=
    10 * n + t + (if (50 <? r) || ((r =? 50) && tieRoundsUp n t) then 1 else 0) in
  decimal (tenths / 10) ++ "." ++ decimal (tenths mod 10).

(** [%.0f] of [n + m/1000]: to the nearest integer, the even one at a half. *)
Definition noDecimal (n m : Z) : string :=
  decimal (n + (if (500 <? m) || ((m =? 500) && Z.odd n) then 1 else 0)).

Definition humanDigits (size : Z) : string :=
  if size <? 10 then decimal size
  else let '(n, m, _) := oomm 8 1000 size 0 0 in
       if n <? 10 then oneDecimal n m else noDecimal n m.

Definition humanizeBigBytes (size : Z) : string :=
  humanDigits size ++ " " ++ siUnit size.

(** The units an [int64] can reach. *)
Definition siSizesInt64 : list string := firstn 7 siSizes.

(** A library whose [BigBytes] prints, for every [int64], a number, a space
    and the unit [unit] selects. *)
Definition rendersUnit `{Lib} (unit : Z -> string) : Prop :=
  forall size, int64_range size ->
               exists digits, BigBytes size = digits ++ " " ++ unit size.

(** Every [FileInfo] of the tree reports an [int64]. *)
Definition entrySizesInt64 (sizesInt64 : Listing -> bool) (e : DirEntry) : bool :=
  match e with
  | Regular _ (Some fi) _ => (- 2 ^ 63 <=? Size fi) && (Size fi <? 2 ^ 63)
  | Regular _ None _ => true
  | Dir _ contents => sizesInt64 contents
  | Other _ => true
  end.

Fixpoint sizesInt64 (l : Listing) : bool :=
  match l with
  | ReadDir dirEntries _ => forallb (entrySizesInt64 sizesInt64) dirEntries
  end.

(** The size on a printed line is an [int64]. *)
Definition int64Line (o : Out) : Prop := int64_range (lineSize o).

(** [s] ends with [suffix]. *)
Definition hasSuffix (suffix s : string) : bool :=
  (String.length suffix <=? String.length s)%nat
  && String.eqb (substring (String.length s - String.length suffix)
                           (String.length suffix) s) suffix.

(** A rendered size ends with a space and one of [units]. *)
Definition endsWithUnit (units : list string) (rendered : string) : bool :=
  existsb (fun unit => hasSuffix (" " ++ unit) rendered) units.

(** The stand-in for the libraries with [humanize.BigBytes] for
    [BigBytes]. *)
Definition humanizeLib : Lib := {|
  Regexp := string;
  MatchString := String.prefix;
  Compile := fun s => inl s;
  Join := fun dir name => dir ++ "/" ++ name;
  ParseBigBytes := fun s => inr ("strconv: cannot parse " ++ s);
  BigBytes := humanizeBigBytes
|}.

Definition vSI : @Current.visualiser humanizeLib :=
  @Current.mkVisualiser humanizeLib (100 * MB) None.

(** A printed line has the form [<path>: <size>], the size being what
    [BigBytes] renders and ending in one of [units]. *)
Definition sizeLine `{Lib} (units : list string) (o : Out) : Prop :=
  match o with
  | Println => True
  | Printf _ path size =>
      render o = path ++ ": " ++ BigBytes size ++ newline
      /\ endsWithUnit units (BigBytes size) = true
  end.

(** ** Concrete trees *)

Definition v100 : @Current.visualiser exampleLib := @Current.mkVisualiser exampleLib (100 * MB) None.

(** Two files, one above the threshold. *)
Definition scenarioA : Listing :=
  ReadDir [file "a.txt" (50 * MB); file "b.txt" (150 * MB)] None.

(** Two sparse files of 4 EiB each. *)
Definition twoHuge : Listing :=
  ReadDir [file "a.img" (2 ^ 62); file "b.img" (2 ^ 62)] None.

(** A regular file removed between [os.ReadDir] and [entry.Info()]:
    [lstat] fails and [Info] returns [(nil, err)]. *)
Definition gone : DirEntry :=
  Regular "gone" None (Some "lstat /root/gone: no such file or directory").

Definition vanished : Listing := ReadDir [gone] None.

Definition aborted : Listing :=
  ReadDir [file "big" (150 * MB);
           folder "cache" [Regular "tmp1" None
                             (Some "lstat /root/cache/tmp1: no such file or directory")];
           file "huge" (500 * MB)] None.

(** A subdirectory with a printed file, followed by a printed file. *)
Definition grouped : Listing :=
  ReadDir [folder "a" [file "x" (150 * MB)]; file "b" (150 * MB)] None.

(** A file above the threshold inside a subdirectory. *)
Definition nested : Listing :=
  ReadDir [folder "d" [file "f" (150 * MB)]] None.

(** Scenario D: [-i "^/root/tmp"]. *)
Definition vIgnoreTmp : @Current.visualiser exampleLib :=
  @Current.mkVisualiser exampleLib (100 * MB) (Some "/root/tmp").

Definition scenarioD : Listing :=
  ReadDir [file "a.txt" (150 * MB);
           folder "tmp" [file "big.bin" (500 * MB)];
           file "b.txt" (50 * MB)] None.

(** A stand-in whose [ParseBigBytes] knows the default threshold. *)
Definition parsingLib : Lib := {|
  Regexp := string;
  MatchString := String.prefix;
  Compile := fun s => inl s;
  Join := fun dir name => dir ++ "/" ++ name;
  ParseBigBytes := fun s =>
    if String.eqb s "100MB" then inl (100 * MB)
    else inr ("strconv: cannot parse " ++ s);
  BigBytes := showBytes
|}.

(** The file system with [scenarioA] under every path. *)
Definition treeA (path : string) : Listing := scenarioA.

(** A directory with a symlink between two files. *)
Definition withLink : Listing :=
  ReadDir [file "a.txt" (150 * MB); Other "link"; file "b.txt" (50 * MB)] None.

Definition v0 : @Current.visualiser exampleLib :=
  @Current.mkVisualiser exampleLib 0 None.

Definition noFlags : Flags := mkFlags None None None.

(** A directory as the disk holds it, its entries in no particular order. *)
Definition unsortedDisk : Listing :=
  ReadDir [file "c.txt" (150 * MB);
           folder "b" [file "y" (200 * MB); file "x" (150 * MB)];
           file "a.txt" (50 * MB)] None.

(** * Properties of the walk *)

(** ** Arithmetic of [int64] *)

Lemma wrap64_range (z : Z) : int64_range (wrap64 z).
Proof.
  unfold int64_range, wrap64.
  pose proof (Z.mod_pos_bound (z + 2 ^ 63) (2 ^ 64) ltac:(lia)). lia.
Qed.

Lemma wrap64_id (z : Z) : int64_range z -> wrap64 z = z.
Proof.
  unfold int64_range, wrap64. intros Hz.
  rewrite Z.mod_small by lia. lia.
Qed.

Lemma wrap64_add_l (a b : Z) : wrap64 (wrap64 a + b) = wrap64 (a + b).
Proof.
  unfold wrap64. f_equal.
  replace ((a + 2 ^ 63) mod 2 ^ 64 - 2 ^ 63 + b + 2 ^ 63)
    with ((a + 2 ^ 63) mod 2 ^ 64 + b) by lia.
  rewrite Zplus_mod_idemp_l. f_equal. lia.
Qed.

Lemma wrap64_add_r (a b : Z) : wrap64 (a + wrap64 b) = wrap64 (a + b).
Proof. rewrite Z.add_comm, wrap64_add_l. f_equal. lia. Qed.

Lemma sumZ_app (l1 l2 : list Z) : sumZ (l1 ++ l2) = sumZ l1 + sumZ l2.
Proof. induction l1 as [|a l1 IH]; simpl; lia. Qed.

(** ** The monad *)

Lemma bind_Some {A B} (m : M A) (k : A -> M B) w w' b :
  bind m k w = (w', Some b) ->
  exists a w1, m w = (w1, Some a) /\ k a w1 = (w', Some b).
Proof.
  unfold bind. destruct (m w) as [w1 [a|]]; intros E.
  - exists a, w1. split; [reflexivity | exact E].
  - discriminate.
Qed.

Lemma bind_ext {A B} (m1 m2 : M A) (k1 k2 : A -> M B) :
  (forall w, m1 w = m2 w) ->
  (forall a w, k1 a w = k2 a w) ->
  forall w, bind m1 k1 w = bind m2 k2 w.
Proof.
  intros Hm Hk w. unfold bind. rewrite Hm.
  destruct (m2 w) as [w1 [a|]]; [apply Hk | reflexivity].
Qed.

Lemma forEach_ext {A S} (body1 body2 : S -> A -> M S) (xs : list A) :
  Forall (fun x => forall st w, body1 st x w = body2 st x w) xs ->
  forall st w, forEach body1 xs st w = forEach body2 xs st w.
Proof.
  induction 1 as [|x xs Hx _ IH]; intros st w; simpl.
  - reflexivity.
  - apply bind_ext; [apply Hx | apply IH].
Qed.

Lemma forEach_app {A S} (body : S -> A -> M S) (xs ys : list A) st w :
  forEach body (xs ++ ys) st w =
  bind (forEach body xs st) (forEach body ys) w.
Proof.
  revert st w. induction xs as [|x xs IH]; intros st w; simpl.
  - reflexivity.
  - unfold bind in *.
    destruct (body st x w) as [w1 [st1|]]; [apply IH | reflexivity].
Qed.

(** *** Frame: a computation only appends to the world it starts from *)

Lemma appendWorld_empty_l d : appendWorld emptyWorld d = d.
Proof. destruct d; reflexivity. Qed.

Lemma appendWorld_empty_r w : appendWorld w emptyWorld = w.
Proof. destruct w; unfold appendWorld; simpl; now rewrite !app_nil_r. Qed.

Lemma appendWorld_assoc w d1 d2 :
  appendWorld (appendWorld w d1) d2 = appendWorld w (appendWorld d1 d2).
Proof. unfold appendWorld; simpl; now rewrite !app_assoc. Qed.

Lemma framed_ret {A} (a : A) : framed (ret a).
Proof. intros w. unfold ret; simpl. now rewrite appendWorld_empty_r. Qed.

Lemma framed_panic {A} : framed (@panic A).
Proof. intros w. unfold panic; simpl. now rewrite appendWorld_empty_r. Qed.

Lemma framed_emit o : framed (emit o).
Proof.
  intros w. unfold emit, appendWorld; simpl. now rewrite app_nil_r.
Qed.

Lemma framed_logPrintf line : framed (logPrintf line).
Proof.
  intros w. unfold logPrintf, appendWorld; simpl. now rewrite app_nil_r.
Qed.

Lemma framed_bind {A B} (m : M A) (k : A -> M B) :
  framed m -> (forall a, framed (k a)) -> framed (bind m k).
Proof.
  intros Hm Hk w. unfold bind. rewrite (Hm w).
  destruct (m emptyWorld) as [d [a|]]; simpl.
  - rewrite (Hk a (appendWorld w d)), (Hk a d). simpl.
    now rewrite appendWorld_assoc.
  - reflexivity.
Qed.

Lemma framed_when b m : framed m -> framed (when b m).
Proof. destruct b; simpl; [trivial | intros _; apply framed_ret]. Qed.

Lemma framed_forEach {A S} (body : S -> A -> M S) (xs : list A) :
  Forall (fun x => forall st, framed (body st x)) xs ->
  forall st, framed (forEach body xs st).
Proof.
  induction 1 as [|x xs Hx _ IH]; intros st; simpl.
  - apply framed_ret.
  - apply framed_bind; [apply Hx | apply IH].
Qed.

Create HintDb frame.
#[local] Hint Resolve framed_ret framed_panic framed_emit framed_logPrintf
  framed_bind framed_when : frame.

(** ** The current walk *)

Section CurrentWalk.
Context `{Lib}.
Import Current.

Implicit Types (v : visualiser) (dir : string) (l : Listing)
         (st : Loop) (w : World).

Lemma report_run v dir st entry entrySize closing w :
  report v dir st entry entrySize closing w =
  (mkWorld (stdout w ++ reportOut v dir st entry entrySize closing) (stderr w),
   Some (mkLoop (add64 (dirSize st) entrySize)
                (reportCount v st entry entrySize) closing)).
Proof.
  unfold report, reportOut, reportCount, bind, when, emit, ret.
  destruct (entrySize >? sizeThreshold v); simpl.
  - destruct (IsRegular entry); simpl;
      [destruct (filesPrintedInThisDir st =? 0)|];
      destruct closing; simpl;
      rewrite <- ?app_assoc; reflexivity.
  - rewrite app_nil_r. destruct w; reflexivity.
Qed.

Lemma getDirSize_unreadable v dir dirEntries e w :
  getDirSize v dir (ReadDir dirEntries (Some e)) w =
  (mkWorld (stdout w)
     (stderr w
      ++ ["error: could not read contents of directory " ++ dir ++ ": " ++ e;
          "warning: will skip directory " ++ dir ++ " in calculations"]),
   Some (0, 0, None)).
Proof.
  simpl. unfold bind, logPrintf, ret; simpl.
  now rewrite <- app_assoc.
Qed.

Lemma getDirSize_readable v dir dirEntries w :
  getDirSize v dir (ReadDir dirEntries None) w =
  bind (forEach (loopBody (getDirSize v) v dir) dirEntries (mkLoop 0 0 false))
       (fun st => ret (dirSize st, filesPrintedInThisDir st, None)) w.
Proof. reflexivity. Qed.

(** *** The walk only appends *)

Lemma framed_report v dir st entry entrySize closing :
  framed (report v dir st entry entrySize closing).
Proof.
  unfold report.
  destruct (entrySize >? sizeThreshold v); auto 10 with frame.
Qed.

Lemma framed_loopBody g v dir st entry :
  (forall name contents, entry = Dir name contents ->
                         framed (g (Join dir name) contents)) ->
  framed (loopBody g v dir st entry).
Proof.
  intros Hg. unfold loopBody. apply framed_bind.
  - unfold switch. destruct entry as [name [fi|] [e|] | name contents | name];
      simpl; auto 10 with frame.
    destruct (shouldSkipDir v (Join dir name)); auto with frame.
    apply framed_bind; [eapply Hg; reflexivity|].
    intros [[entrySize n] [e|]]; auto 10 with frame.
  - intros [|entrySize closing]; [apply framed_ret | apply framed_report].
Qed.

Lemma framed_getDirSize v l : forall dir, framed (getDirSize v dir l).
Proof.
  induction l as [dirEntries err IH] using Listing_tree_ind. intros dir.
  destruct err as [e|].
  - simpl. auto 10 with frame.
  - simpl. apply framed_bind; [|intros st; apply framed_ret].
    apply framed_forEach.
    rewrite Forall_forall in IH |- *. intros entry Hin st.
    apply framed_loopBody. intros name contents ->.
    apply (IH _ Hin).
Qed.

Lemma framed_visualise v dir l : framed (visualise v dir l).
Proof.
  unfold visualise. apply framed_bind; [apply framed_getDirSize|].
  intros [[size n] [e|]]; [apply framed_logPrintf|].
  destruct (size >? sizeThreshold v); auto with frame.
Qed.

(** *** The loop body, entry kind by entry kind *)

Lemma loopBody_nil_info g v dir st name err w :
  loopBody g v dir st (Regular name None err) w = (w, None).
Proof. reflexivity. Qed.

Lemma loopBody_info_err g v dir st name fi e w :
  loopBody g v dir st (Regular name (Some fi) (Some e)) w =
  (mkWorld (stdout w)
     (stderr w
      ++ ["error: could not get info for file " ++ Join dir name ++ ": " ++ e;
          "warning: file " ++ Join dir name
          ++ " will not be included in calculations"]),
   Some st).
Proof.
  unfold loopBody, switch, bind, logPrintf, ret; simpl.
  now rewrite <- app_assoc.
Qed.

Lemma loopBody_file g v dir st name fi w :
  loopBody g v dir st (Regular name (Some fi) None) w =
  report v dir st (Regular name (Some fi) None) (Size fi)
         (shouldPrintAClosingNewLine st) w.
Proof. reflexivity. Qed.

Lemma loopBody_other g v dir st name w :
  loopBody g v dir st (Other name) w =
  report v dir st (Other name) 0 (shouldPrintAClosingNewLine st) w.
Proof. reflexivity. Qed.

Lemma loopBody_skipped g v dir st name contents w :
  shouldSkipDir v (Join dir name) = true ->
  loopBody g v dir st (Dir name contents) w =
  (mkWorld (stdout w)
     (stderr w ++ ["warning: ignoring directory '" ++ Join dir name
                   ++ "' due to matched ignore-regexp"]),
   Some st).
Proof.
  intros Hskip. unfold loopBody, switch; simpl. rewrite Hskip.
  reflexivity.
Qed.

Lemma loopBody_subdir g v dir st name contents w w1 entrySize n :
  shouldSkipDir v (Join dir name) = false ->
  g (Join dir name) contents w = (w1, Some (entrySize, n, None)) ->
  loopBody g v dir st (Dir name contents) w =
  report v dir st (Dir name contents) entrySize
         (if n >? 0 then true else shouldPrintAClosingNewLine st) w1.
Proof.
  intros Hskip Hg. unfold loopBody, switch; simpl. rewrite Hskip.
  unfold bind. rewrite Hg. reflexivity.
Qed.

Lemma loopBody_subdir_panic g v dir st name contents w w1 :
  shouldSkipDir v (Join dir name) = false ->
  g (Join dir name) contents w = (w1, None) ->
  loopBody g v dir st (Dir name contents) w = (w1, None).
Proof.
  intros Hskip Hg. unfold loopBody, switch; simpl. rewrite Hskip.
  unfold bind. rewrite Hg. reflexivity.
Qed.

(** [getDirSize] has no [return] with a non-nil error. *)
Lemma getDirSize_err_nil v dir l w w' size n err :
  getDirSize v dir l w = (w', Some (size, n, err)) -> err = None.
Proof.
  destruct l as [dirEntries [e|]].
  - rewrite getDirSize_unreadable. congruence.
  - rewrite getDirSize_readable. intros E.
    apply bind_Some in E as (st & w1 & _ & E). unfold ret in E. congruence.
Qed.

(** *** The returned size *)

Lemma loopBody_dirSize v dir st entry w w1 st1 :
  subdirs (fun contents =>
             forall dir w w' size n err,
               getDirSize v dir contents w = (w', Some (size, n, err)) ->
               size = wrap64 (treeSize v dir contents)) entry ->
  int64_range (dirSize st) ->
  loopBody (getDirSize v) v dir st entry w = (w1, Some st1) ->
  dirSize st1 = wrap64 (dirSize st + entryTotal (treeSize v) v dir entry).
Proof.
  intros IH Hst.
  destruct entry as [name [fi|] [e|] | name contents | name]; simpl.
  - rewrite loopBody_info_err. intros [= _ <-].
    rewrite Z.add_0_r. symmetry. now apply wrap64_id.
  - rewrite loopBody_file, report_run. now intros [= _ <-].
  - rewrite loopBody_nil_info. discriminate.
  - rewrite loopBody_nil_info. discriminate.
  - destruct (shouldSkipDir v (Join dir name)) eqn:Hskip.
    + rewrite loopBody_skipped by assumption. intros [= _ <-].
      rewrite Z.add_0_r. symmetry. now apply wrap64_id.
    + destruct (getDirSize v (Join dir name) contents w)
        as [w2 [[[size n] err]|]] eqn:E.
      * pose proof (getDirSize_err_nil _ _ _ _ _ _ _ _ E) as ->.
        rewrite (loopBody_subdir _ _ _ _ _ _ _ _ _ _ Hskip E), report_run.
        intros [= _ <-]. simpl. unfold add64.
        rewrite (IH _ _ _ _ _ _ E). apply wrap64_add_r.
      * rewrite (loopBody_subdir_panic _ _ _ _ _ _ _ _ Hskip E). discriminate.
  - rewrite loopBody_other, report_run. now intros [= _ <-].
Qed.

Lemma forEach_dirSize v dir dirEntries :
  Forall (subdirs (fun contents =>
             forall dir w w' size n err,
               getDirSize v dir contents w = (w', Some (size, n, err)) ->
               size = wrap64 (treeSize v dir contents))) dirEntries ->
  forall st w w' st',
    int64_range (dirSize st) ->
    forEach (loopBody (getDirSize v) v dir) dirEntries st w = (w', Some st') ->
    dirSize st' =
    wrap64 (dirSize st + sumZ (map (entryTotal (treeSize v) v dir) dirEntries)).
Proof.
  induction 1 as [|entry es Hentry _ IH]; intros st w w' st' Hst; simpl.
  - intros [= _ <-]. rewrite Z.add_0_r. symmetry. now apply wrap64_id.
  - intros E. apply bind_Some in E as (st1 & w1 & E1 & E2).
    pose proof (loopBody_dirSize _ _ _ _ _ _ _ Hentry Hst E1) as Hst1.
    rewrite (IH _ _ _ _ ltac:(rewrite Hst1; apply wrap64_range) E2), Hst1.
    rewrite wrap64_add_l. f_equal. lia.
Qed.

Lemma getDirSize_size v l :
  forall dir w w' size n err,
    getDirSize v dir l w = (w', Some (size, n, err)) ->
    size = wrap64 (treeSize v dir l).
Proof.
  induction l as [dirEntries [e|] IH] using Listing_tree_ind;
    intros dir w w' size n err.
  - rewrite getDirSize_unreadable. now intros [= _ <- _ _].
  - rewrite getDirSize_readable. intros E.
    apply bind_Some in E as (st & w1 & E & [= _ <- _ _]).
    apply (forEach_dirSize _ _ _ IH) in E; [|simpl; unfold int64_range; lia].
    exact E.
Qed.

(** *** When the walk returns *)

Lemma report_returns v dir st entry entrySize closing w :
  snd (report v dir st entry entrySize closing w) <> None.
Proof. rewrite report_run. discriminate. Qed.

Lemma loopBody_panics v dir st entry w :
  subdirs (fun contents =>
             forall dir w,
               snd (getDirSize v dir contents w) = None <->
               reachesNilInfo v dir contents = true) entry ->
  snd (loopBody (getDirSize v) v dir st entry w) = None <->
  entryReachesNilInfo (reachesNilInfo v) v dir entry = true.
Proof.
  intros IH.
  destruct entry as [name [fi|] [e|] | name contents | name];
    cbn [entryReachesNilInfo].
  - rewrite loopBody_info_err. simpl. split; discriminate.
  - rewrite loopBody_file, report_run. simpl. split; discriminate.
  - rewrite loopBody_nil_info. simpl. tauto.
  - rewrite loopBody_nil_info. simpl. tauto.
  - destruct (shouldSkipDir v (Join dir name)) eqn:Hskip; cbn [negb andb].
    + rewrite loopBody_skipped by assumption. simpl. split; discriminate.
    + rewrite <- (IH (Join dir name) w).
      destruct (getDirSize v (Join dir name) contents w)
        as [w2 [[[size n] err]|]] eqn:E.
      * pose proof (getDirSize_err_nil _ _ _ _ _ _ _ _ E) as ->.
        rewrite (loopBody_subdir _ _ _ _ _ _ _ _ _ _ Hskip E), report_run.
        simpl. split; discriminate.
      * rewrite (loopBody_subdir_panic _ _ _ _ _ _ _ _ Hskip E). simpl. tauto.
  - rewrite loopBody_other, report_run. simpl. split; discriminate.
Qed.

Lemma forEach_panics v dir dirEntries :
  Forall (subdirs (fun contents =>
             forall dir w,
               snd (getDirSize v dir contents w) = None <->
               reachesNilInfo v dir contents = true)) dirEntries ->
  forall st w,
    snd (forEach (loopBody (getDirSize v) v dir) dirEntries st w) = None <->
    existsb (entryReachesNilInfo (reachesNilInfo v) v dir) dirEntries = true.
Proof.
  induction 1 as [|entry es Hentry _ IH]; intros st w; simpl.
  - split; discriminate.
  - rewrite orb_true_iff, <- (loopBody_panics v dir st entry w Hentry).
    unfold bind.
    destruct (loopBody (getDirSize v) v dir st entry w) as [w1 [st1|]]; simpl.
    + rewrite IH. split; [tauto | intros [?|?]; [discriminate | assumption]].
    + tauto.
Qed.

Lemma getDirSize_panics v l :
  forall dir w,
    snd (getDirSize v dir l w) = None <-> reachesNilInfo v dir l = true.
Proof.
  induction l as [dirEntries [e|] IH] using Listing_tree_ind; intros dir w.
  - rewrite getDirSize_unreadable. simpl. split; discriminate.
  - rewrite getDirSize_readable. simpl.
    rewrite <- (forEach_panics v dir dirEntries IH (mkLoop 0 0 false) w).
    unfold bind.
    destruct (forEach (loopBody (getDirSize v) v dir) dirEntries
                      (mkLoop 0 0 false) w) as [w1 [st1|]]; simpl.
    + split; discriminate.
    + tauto.
Qed.

(** The walk returns on every tree in which it reaches no regular file whose
    [Info] yields a nil [FileInfo]. *)
Lemma getDirSize_returns v dir l w :
  reachesNilInfo v dir l = false ->
  exists w' size n, getDirSize v dir l w = (w', Some (size, n, None)).
Proof.
  intros Hreach.
  destruct (getDirSize v dir l w) as [w' [[[size n] err]|]] eqn:E.
  - pose proof (getDirSize_err_nil _ _ _ _ _ _ _ _ E) as ->. eauto.
  - pose proof (proj1 (getDirSize_panics v l dir w)) as Hp.
    rewrite E in Hp. specialize (Hp eq_refl). congruence.
Qed.
End CurrentWalk.

(** ** What holds of the world along a run, panicking or not *)

Lemma bind_world_inv {A B} (J : World -> Prop) (m : M A) (k : A -> M B) :
  (forall w, J w -> J (fst (m w))) ->
  (forall a w, J w -> J (fst (k a w))) ->
  forall w, J w -> J (fst (bind m k w)).
Proof.
  intros Hm Hk w Hw. unfold bind. specialize (Hm w Hw).
  destruct (m w) as [w1 [a|]]; simpl in *; [apply Hk|]; assumption.
Qed.

Lemma forEach_world_inv {A S} (J : World -> Prop) (body : S -> A -> M S) xs :
  Forall (fun x => forall st w, J w -> J (fst (body st x w))) xs ->
  forall st w, J w -> J (fst (forEach body xs st w)).
Proof.
  induction 1 as [|x xs Hx _ IH]; intros st w Hw; simpl.
  - assumption.
  - apply bind_world_inv; auto.
Qed.

Lemma string_app_assoc (a b c : string) : ((a ++ b) ++ c = a ++ (b ++ c))%string.
Proof. induction a as [|ch a IH]; simpl; [reflexivity | now rewrite IH]. Qed.

Lemma stdoutText_append `{Lib} (w d : World) :
  stdoutText (appendWorld w d) = (stdoutText w ++ stdoutText d)%string.
Proof.
  unfold stdoutText, appendWorld; simpl.
  induction (stdout w) as [|o out IH]; simpl.
  - reflexivity.
  - now rewrite IH, string_app_assoc.
Qed.

Section CurrentOutput.
Context `{Lib}.
Import Current.

Lemma reportOut_aboveThreshold v dir st entry entrySize closing :
  Forall (aboveThreshold (sizeThreshold v))
         (reportOut v dir st entry entrySize closing).
Proof.
  unfold reportOut.
  destruct (entrySize >? sizeThreshold v) eqn:Hgt; [|constructor].
  apply Z.gtb_lt in Hgt.
  repeat (apply Forall_app; split).
  - destruct (_ && _); repeat constructor.
  - repeat constructor. simpl. lia.
  - destruct closing; repeat constructor.
Qed.

Lemma loopBody_aboveThreshold g v dir st entry w :
  (forall name contents w,
      entry = Dir name contents ->
      Forall (aboveThreshold (sizeThreshold v)) (stdout w) ->
      Forall (aboveThreshold (sizeThreshold v))
             (stdout (fst (g (Join dir name) contents w)))) ->
  Forall (aboveThreshold (sizeThreshold v)) (stdout w) ->
  Forall (aboveThreshold (sizeThreshold v))
         (stdout (fst (loopBody g v dir st entry w))).
Proof.
  intros Hg Hw.
  assert (Hreport : forall entrySize closing w1,
             Forall (aboveThreshold (sizeThreshold v)) (stdout w1) ->
             Forall (aboveThreshold (sizeThreshold v))
               (stdout (fst (report v dir st entry entrySize closing w1)))).
  { intros. rewrite report_run. simpl. apply Forall_app. split; trivial.
    apply reportOut_aboveThreshold. }
  destruct entry as [name [fi|] [e|] | name contents | name].
  - rewrite loopBody_info_err. assumption.
  - rewrite loopBody_file. now apply Hreport.
  - rewrite loopBody_nil_info. assumption.
  - rewrite loopBody_nil_info. assumption.
  - destruct (shouldSkipDir v (Join dir name)) eqn:Hskip.
    + rewrite loopBody_skipped by assumption. assumption.
    + specialize (Hg name contents w eq_refl Hw).
      destruct (g (Join dir name) contents w)
        as [w2 [[[size n] [e|]]|]] eqn:E.
      * unfold loopBody, switch; simpl. rewrite Hskip.
        unfold bind. rewrite E. simpl. assumption.
      * rewrite (loopBody_subdir _ _ _ _ _ _ _ _ _ _ Hskip E).
        now apply Hreport.
      * now rewrite (loopBody_subdir_panic _ _ _ _ _ _ _ _ Hskip E).
  - rewrite loopBody_other. now apply Hreport.
Qed.

Lemma getDirSize_aboveThreshold v l :
  forall dir w,
    Forall (aboveThreshold (sizeThreshold v)) (stdout w) ->
    Forall (aboveThreshold (sizeThreshold v))
           (stdout (fst (getDirSize v dir l w))).
Proof.
  induction l as [dirEntries [e|] IH] using Listing_tree_ind; intros dir w Hw.
  - now rewrite getDirSize_unreadable.
  - rewrite getDirSize_readable.
    apply (bind_world_inv
             (fun w => Forall (aboveThreshold (sizeThreshold v)) (stdout w)));
      trivial.
    apply (forEach_world_inv
             (fun w => Forall (aboveThreshold (sizeThreshold v)) (stdout w))).
    rewrite Forall_forall in IH |- *. intros entry Hin st w1 Hw1.
    apply loopBody_aboveThreshold; trivial.
    intros name contents w2 -> Hw2. now apply (IH _ Hin).
Qed.

Lemma visualise_aboveThreshold v dir l w :
  Forall (aboveThreshold (sizeThreshold v)) (stdout w) ->
  Forall (aboveThreshold (sizeThreshold v))
         (stdout (fst (visualise v dir l w))).
Proof.
  intros Hw. unfold visualise.
  apply (bind_world_inv
           (fun w => Forall (aboveThreshold (sizeThreshold v)) (stdout w)));
    trivial.
  - intros w1. apply getDirSize_aboveThreshold.
  - intros [[size n] [e|]] w1 Hw1; [exact Hw1|].
    destruct (size >? sizeThreshold v) eqn:Hgt; [|exact Hw1].
    apply Z.gtb_lt in Hgt. simpl.
    rewrite <- app_assoc. apply Forall_app. split; trivial.
    repeat constructor. simpl. lia.
Qed.

(** *** The lines and the closing blank line *)

Lemma render_line regular path size :
  render (Printf regular path size) =
  (path ++ ": " ++ BigBytes size ++ newline)%string.
Proof. reflexivity. Qed.

(** Once set, [shouldPrintAClosingNewLine] stays set for the rest of the
    listing. *)
Lemma closing_flag_sticky g v dir st entry w w1 st1 :
  loopBody g v dir st entry w = (w1, Some st1) ->
  shouldPrintAClosingNewLine st = true ->
  shouldPrintAClosingNewLine st1 = true.
Proof.
  intros E Hflag.
  destruct entry as [name [fi|] [e|] | name contents | name].
  - rewrite loopBody_info_err in E. congruence.
  - rewrite loopBody_file, report_run in E. injection E as _ <-. exact Hflag.
  - rewrite loopBody_nil_info in E. discriminate.
  - rewrite loopBody_nil_info in E. discriminate.
  - destruct (shouldSkipDir v (Join dir name)) eqn:Hskip.
    + rewrite loopBody_skipped in E by assumption. congruence.
    + destruct (g (Join dir name) contents w)
        as [w2 [[[size n] [e|]]|]] eqn:Eg.
      * unfold loopBody, switch in E; simpl in E. rewrite Hskip in E.
        unfold bind, logPrintf, ret in E. rewrite Eg in E. simpl in E.
        congruence.
      * rewrite (loopBody_subdir _ _ _ _ _ _ _ _ _ _ Hskip Eg), report_run in E.
        injection E as _ <-. simpl. rewrite Hflag. now destruct (n >? 0).
      * rewrite (loopBody_subdir_panic _ _ _ _ _ _ _ _ Hskip Eg) in E.
        discriminate.
  - rewrite loopBody_other, report_run in E. injection E as _ <-. exact Hflag.
Qed.

(** With the flag set, the line of a regular file above the threshold is
    followed by a blank line. *)
Lemma file_line_closed_when_flag_set g v dir st name fi w :
  shouldPrintAClosingNewLine st = true ->
  sizeThreshold v < Size fi ->
  stdout (fst (loopBody g v dir st (Regular name (Some fi) None) w)) =
  (stdout w
   ++ (if filesPrintedInThisDir st =? 0 then [Println] else [])
   ++ [Printf true (Join dir name) (Size fi); Println])%list.
Proof.
  intros Hflag Hgt. rewrite loopBody_file, report_run. simpl.
  unfold reportOut. rewrite Hflag.
  replace (Size fi >? sizeThreshold v) with true
    by (symmetry; apply Z.gtb_lt; lia).
  reflexivity.
Qed.
End CurrentOutput.

(** ** The bytes on the lines printed for regular files *)

Lemma regularBytes_app (a b : list Out) :
  regularBytes (a ++ b) = regularBytes a + regularBytes b.
Proof. unfold regularBytes. now rewrite map_app, sumZ_app. Qed.

Section CurrentBytes.
Context `{Lib}.
Import Current.

Lemma framed_loop v dir dirEntries st :
  framed (forEach (loopBody (getDirSize v) v dir) dirEntries st).
Proof.
  apply framed_forEach. apply Forall_forall. intros entry _ st'.
  apply framed_loopBody. intros name contents _. apply framed_getDirSize.
Qed.

Lemma regularBytes_reportOut v dir st entry entrySize closing :
  regularBytes (reportOut v dir st entry entrySize closing) =
  if (entrySize >? sizeThreshold v) && IsRegular entry then entrySize else 0.
Proof.
  unfold reportOut.
  destruct (entrySize >? sizeThreshold v); simpl; [|reflexivity].
  rewrite regularBytes_app.
  destruct (IsRegular entry); simpl;
    [destruct (filesPrintedInThisDir st =? 0)|]; destruct closing;
    unfold regularBytes; simpl; lia.
Qed.

Lemma entryTotal_nonneg v dir entry :
  subdirs (fun contents => forall dir, 0 <= treeSize v dir contents) entry ->
  entryNonneg sizesNonneg entry = true ->
  0 <= entryTotal (treeSize v) v dir entry.
Proof.
  destruct entry as [name [fi|] [e|] | name contents | name];
    cbn [entryTotal entryNonneg subdirs]; intros IH Hnn; try lia.
  destruct (shouldSkipDir v (Join dir name)); [lia | apply IH].
Qed.

Lemma sum_entryTotal_nonneg v dir dirEntries :
  Forall (subdirs (fun contents => forall dir, 0 <= treeSize v dir contents))
         dirEntries ->
  forallb (entryNonneg sizesNonneg) dirEntries = true ->
  0 <= sumZ (map (entryTotal (treeSize v) v dir) dirEntries).
Proof.
  induction 1 as [|entry es Hentry _ IH]; simpl; intros Hnn; [lia|].
  apply andb_true_iff in Hnn as [Hnn1 Hnn2].
  pose proof (entryTotal_nonneg v dir entry Hentry Hnn1).
  specialize (IH Hnn2). lia.
Qed.

Lemma treeSize_nonneg v l :
  sizesNonneg l = true -> forall dir, 0 <= treeSize v dir l.
Proof.
  induction l as [dirEntries err IH] using Listing_tree_ind.
  intros Hnn dir. destruct err as [e|]; simpl; [lia|].
  simpl in Hnn. apply sum_entryTotal_nonneg; trivial.
  rewrite forallb_forall in Hnn.
  rewrite Forall_forall in IH |- *. intros entry Hin.
  specialize (IH entry Hin). specialize (Hnn entry Hin).
  destruct entry; simpl in *; auto.
Qed.

Lemma loopBody_regularBytes v dir st entry w :
  subdirs (fun contents =>
             forall dir w,
               regularBytes (stdout (fst (getDirSize v dir contents w)))
               <= regularBytes (stdout w) + treeSize v dir contents) entry ->
  entryNonneg sizesNonneg entry = true ->
  regularBytes (stdout (fst (loopBody (getDirSize v) v dir st entry w)))
  <= regularBytes (stdout w) + entryTotal (treeSize v) v dir entry.
Proof.
  intros IH Hnn.
  destruct entry as [name [fi|] [e|] | name contents | name];
    cbn [entryTotal].
  - rewrite loopBody_info_err. simpl. lia.
  - rewrite loopBody_file, report_run. simpl in *.
    rewrite regularBytes_app, regularBytes_reportOut.
    apply Z.leb_le in Hnn.
    destruct (_ && _); lia.
  - rewrite loopBody_nil_info. simpl. lia.
  - rewrite loopBody_nil_info. simpl. lia.
  - destruct (shouldSkipDir v (Join dir name)) eqn:Hskip.
    + rewrite loopBody_skipped by assumption. simpl. lia.
    + specialize (IH (Join dir name) w).
      destruct (getDirSize v (Join dir name) contents w)
        as [w2 [[[size n] err]|]] eqn:E.
      * pose proof (getDirSize_err_nil _ _ _ _ _ _ _ _ E) as ->.
        rewrite (loopBody_subdir _ _ _ _ _ _ _ _ _ _ Hskip E), report_run.
        simpl in *.
        rewrite regularBytes_app, regularBytes_reportOut. simpl.
        rewrite andb_false_r. lia.
      * rewrite (loopBody_subdir_panic _ _ _ _ _ _ _ _ Hskip E). exact IH.
  - rewrite loopBody_other, report_run. simpl.
    rewrite regularBytes_app, regularBytes_reportOut. simpl.
    rewrite andb_false_r. lia.
Qed.

Lemma getDirSize_regularBytes v l :
  sizesNonneg l = true ->
  forall dir w,
    regularBytes (stdout (fst (getDirSize v dir l w)))
    <= regularBytes (stdout w) + treeSize v dir l.
Proof.
  induction l as [dirEntries err IH] using Listing_tree_ind.
  intros Hnn dir w. destruct err as [e|].
  - rewrite getDirSize_unreadable. simpl. lia.
  - rewrite getDirSize_readable. cbn [treeSize]. simpl in Hnn.
    assert (Hloop : forall st w,
               regularBytes
                 (stdout (fst (forEach (loopBody (getDirSize v) v dir)
                                       dirEntries st w)))
               <= regularBytes (stdout w)
                  + sumZ (map (entryTotal (treeSize v) v dir) dirEntries)).
    { clear w. induction dirEntries as [|entry es IHes]; intros st w.
      - simpl. lia.
      - simpl in Hnn. apply andb_true_iff in Hnn as [Hnn1 Hnn2].
        inversion IH as [|? ? Hentry Hes]; subst.
        assert (Hentry' : subdirs (fun contents => forall dir w,
                   regularBytes (stdout (fst (getDirSize v dir contents w)))
                   <= regularBytes (stdout w) + treeSize v dir contents) entry).
        { destruct entry; simpl in *; auto. }
        pose proof (loopBody_regularBytes v dir st entry w Hentry' Hnn1) as Hstep.
        assert (Hrest : 0 <= sumZ (map (entryTotal (treeSize v) v dir) es)).
        { apply sum_entryTotal_nonneg; trivial.
          rewrite forallb_forall in Hnn2.
          rewrite Forall_forall in Hes |- *. intros e' Hin.
          destruct e' as [| name contents |]; simpl; trivial.
          intros dir'. apply treeSize_nonneg.
          exact (Hnn2 _ Hin). }
        cbn [forEach map sumZ fold_right]. unfold bind.
        destruct (loopBody (getDirSize v) v dir st entry w) as [w1 [st1|]];
          simpl in *.
        + specialize (IHes Hes Hnn2 st1 w1). unfold sumZ in *. lia.
        + unfold sumZ in *. lia. }
    specialize (Hloop (mkLoop 0 0 false) w). unfold bind.
    destruct (forEach (loopBody (getDirSize v) v dir) dirEntries
                      (mkLoop 0 0 false) w) as [w1 [st1|]]; exact Hloop.
Qed.

Lemma visualise_regularBytes v dir l w :
  regularBytes (stdout (fst (visualise v dir l w))) =
  regularBytes (stdout (fst (getDirSize v dir l w))).
Proof.
  unfold visualise, bind.
  destruct (getDirSize v dir l w) as [w1 [[[size n] [e|]]|]]; simpl;
    try reflexivity.
  destruct (size >? sizeThreshold v); simpl; [|reflexivity].
  rewrite !regularBytes_app. unfold regularBytes; simpl. lia.
Qed.
End CurrentBytes.

(** ** Ignored directories, and the walk without an ignore-regexp *)

Section CurrentSkip.
Context `{Lib}.

Lemma forEach_without_skipped v dir name contents before after :
  Current.shouldSkipDir v (Join dir name) = true ->
  forall st w,
    let with_dir :=
      forEach (Current.loopBody (Current.getDirSize v) v dir)
              (before ++ Dir name contents :: after) st w in
    let without_dir :=
      forEach (Current.loopBody (Current.getDirSize v) v dir)
              (before ++ after) st w in
    snd with_dir = snd without_dir /\
    stdout (fst with_dir) = stdout (fst without_dir).
Proof.
  intros Hskip. cbv zeta.
  induction before as [|entry before IH]; intros st w.
  - cbn [app forEach]. unfold bind.
    rewrite (loopBody_skipped _ _ _ _ _ _ _ Hskip).
    rewrite (framed_loop v dir after st (mkWorld _ _)).
    rewrite (framed_loop v dir after st w).
    simpl. auto.
  - cbn [app forEach]. unfold bind.
    destruct (Current.loopBody (Current.getDirSize v) v dir st entry w)
      as [w1 [st1|]]; [apply IH | auto].
Qed.

Lemma getDirSize_without_skipped v dir name contents before after w :
  Current.shouldSkipDir v (Join dir name) = true ->
  let with_dir :=
    Current.getDirSize v dir
      (ReadDir (before ++ Dir name contents :: after) None) w in
  let without_dir :=
    Current.getDirSize v dir (ReadDir (before ++ after) None) w in
  snd with_dir = snd without_dir /\
  stdout (fst with_dir) = stdout (fst without_dir).
Proof.
  intros Hskip. cbv zeta. rewrite !getDirSize_readable.
  destruct (forEach_without_skipped v dir name contents before after Hskip
              (mkLoop 0 0 false) w) as [Hres Hout].
  unfold bind.
  destruct (forEach _ (before ++ Dir name contents :: after) _ w)
    as [wa [sa|]];
    destruct (forEach _ (before ++ after) _ w) as [wb [sb|]];
    simpl in *; try discriminate; split; congruence.
Qed.

Lemma shouldSkipDir_no_regexp v path :
  Current.ignoreRegexp v = None -> Current.shouldSkipDir v path = false.
Proof. unfold Current.shouldSkipDir. now intros ->. Qed.

(** An empty [-i] pattern leaves [ignoreRegexp] nil. *)
Lemma newVisualiser_empty_pattern sizeThreshold v :
  Current.newVisualiser sizeThreshold "" = inl v ->
  Current.ignoreRegexp v = None.
Proof.
  unfold Current.newVisualiser.
  destruct (ParseBigBytes sizeThreshold) as [parsed|e]; simpl.
  - now intros [= <-].
  - discriminate.
Qed.

Lemma report_same v dir st entry entrySize closing w :
  Current.report v dir st entry entrySize closing w =
  Earlier.report dir (Current.sizeThreshold v) st entry entrySize closing w.
Proof. reflexivity. Qed.

Lemma loopBody_same v dir st entry w :
  Current.ignoreRegexp v = None ->
  subdirs (fun contents =>
             forall dir w,
               Current.getDirSize v dir contents w =
               Earlier.getDirSize dir (Current.sizeThreshold v) contents w)
          entry ->
  Current.loopBody (Current.getDirSize v) v dir st entry w =
  Earlier.loopBody Earlier.getDirSize dir (Current.sizeThreshold v) st entry w.
Proof.
  intros Hnil IH. unfold Current.loopBody, Earlier.loopBody.
  apply bind_ext.
  - intros w1. destruct entry as [name info err | name contents | name];
      try reflexivity.
    unfold Current.switch, Earlier.switch. cbn [Name].
    rewrite (shouldSkipDir_no_regexp v _ Hnil).
    apply bind_ext; [apply IH | reflexivity].
  - intros [|entrySize closing] w1; [reflexivity | apply report_same].
Qed.

Lemma getDirSize_same v l :
  Current.ignoreRegexp v = None ->
  forall dir w,
    Current.getDirSize v dir l w =
    Earlier.getDirSize dir (Current.sizeThreshold v) l w.
Proof.
  intros Hnil.
  induction l as [dirEntries [e|] IH] using Listing_tree_ind; intros dir w.
  - reflexivity.
  - cbn [Current.getDirSize Earlier.getDirSize].
    apply bind_ext; [|reflexivity].
    apply forEach_ext.
    rewrite Forall_forall in IH |- *. intros entry Hin st w1.
    apply loopBody_same; auto.
Qed.
End CurrentSkip.

(** ** The order of [os.ReadDir] *)

Lemma ascii_compare_lt_trans a b c :
  Ascii.compare a b = Lt -> Ascii.compare b c = Lt -> Ascii.compare a c = Lt.
Proof.
  unfold Ascii.compare. rewrite !N.compare_lt_iff. apply N.lt_trans.
Qed.

Lemma string_compare_lt_trans s1 :
  forall s2 s3,
    String.compare s1 s2 = Lt -> String.compare s2 s3 = Lt ->
    String.compare s1 s3 = Lt.
Proof.
  induction s1 as [|c1 s1 IH]; intros [|c2 s2] [|c3 s3]; cbn;
    try discriminate; trivial.
  destruct (Ascii.compare c1 c2) eqn:E12; try discriminate;
    destruct (Ascii.compare c2 c3) eqn:E23; try discriminate; intros H12 H23.
  - apply Ascii.compare_eq_iff in E12, E23. subst.
    replace (Ascii.compare c3 c3) with Eq
      by (symmetry; unfold Ascii.compare; apply N.compare_refl).
    now apply (IH s2 s3).
  - apply Ascii.compare_eq_iff in E12. subst. now rewrite E23.
  - apply Ascii.compare_eq_iff in E23. subst. now rewrite E12.
  - now rewrite (ascii_compare_lt_trans _ _ _ E12 E23).
Qed.

Lemma string_leb_trans s1 s2 s3 :
  String.leb s1 s2 = true -> String.leb s2 s3 = true -> String.leb s1 s3 = true.
Proof.
  unfold String.leb.
  destruct (String.compare s1 s2) eqn:E12; try discriminate;
    destruct (String.compare s2 s3) eqn:E23; try discriminate; intros _ _.
  - apply String.compare_eq_iff in E12, E23. subst.
    destruct (String.compare s3 s3) eqn:E; trivial.
    pose proof (String.compare_antisym s3 s3) as Ha. rewrite E in Ha.
    discriminate.
  - apply String.compare_eq_iff in E12. subst. now rewrite E23.
  - apply String.compare_eq_iff in E23. subst. now rewrite E12.
  - now rewrite (string_compare_lt_trans _ _ _ E12 E23).
Qed.

Lemma insertByName_perm e es : Permutation (insertByName e es) (e :: es).
Proof.
  induction es as [|e' es IH]; cbn; [reflexivity|].
  destruct (String.leb (Name e) (Name e')); [reflexivity|].
  rewrite IH. apply perm_swap.
Qed.

Lemma sortByName_perm es : Permutation (sortByName es) es.
Proof.
  induction es as [|e es IH]; cbn; [reflexivity|].
  rewrite insertByName_perm. now apply perm_skip.
Qed.

Lemma insertByName_sorted e es :
  StronglySorted nameLe es -> StronglySorted nameLe (insertByName e es).
Proof.
  induction 1 as [|e' es Hes IH Hhead]; cbn.
  - repeat constructor.
  - destruct (String.leb (Name e) (Name e')) eqn:Hle.
    + constructor; [now constructor|]. constructor; [exact Hle|].
      rewrite Forall_forall in Hhead |- *. intros x Hx.
      exact (string_leb_trans _ _ _ Hle (Hhead x Hx)).
    + constructor; [exact IH|].
      rewrite Forall_forall in Hhead |- *. intros x Hx.
      apply (Permutation_in _ (insertByName_perm e es)) in Hx.
      destruct Hx as [<-|Hx]; [|now apply Hhead].
      unfold nameLe.
      destruct (String.leb_total (Name e) (Name e')) as [H1|H1];
        [congruence | exact H1].
Qed.

Lemma sortByName_sorted es : StronglySorted nameLe (sortByName es).
Proof.
  induction es as [|e es IH]; cbn; [constructor|].
  now apply insertByName_sorted.
Qed.

Lemma distinct_NoDup names : distinct names = true -> NoDup names.
Proof.
  induction names as [|name names IH]; cbn; intros Hd; constructor.
  - apply andb_true_iff in Hd as [Hfresh _].
    intros Hin. apply negb_true_iff in Hfresh.
    assert (existsb (String.eqb name) names = true); [|congruence].
    apply existsb_exists. exists name. split; trivial. apply String.eqb_refl.
  - apply andb_true_iff in Hd as [_ Hd]. now apply IH.
Qed.

(** Two sorted lists with the same entries, no two of the same name, are the
    same list. *)
Lemma sorted_listing_unique es1 :
  forall es2,
    StronglySorted nameLe es1 -> StronglySorted nameLe es2 ->
    Permutation es1 es2 -> NoDup (map Name es1) -> es1 = es2.
Proof.
  induction es1 as [|a es1 IH]; intros es2 Hs1 Hs2 Hperm Hnd.
  - now apply Permutation_nil in Hperm.
  - destruct es2 as [|b es2];
      [apply Permutation_sym, Permutation_nil in Hperm; discriminate|].
    inversion Hs1 as [|? ? Hs1' Ha]; subst.
    inversion Hs2 as [|? ? Hs2' Hb]; subst.
    inversion Hnd as [|? ? Hfresh Hnd']; subst.
    assert (Hab : a = b).
    { assert (Hina : In a (b :: es2))
        by (apply (Permutation_in _ Hperm); now left).
      assert (Hinb : In b (a :: es1))
        by (apply (Permutation_in _ (Permutation_sym Hperm)); now left).
      destruct Hina as [->|Hina]; [reflexivity|].
      destruct Hinb as [->|Hinb]; [reflexivity|].
      rewrite Forall_forall in Ha, Hb.
      pose proof (String.leb_antisym _ _ (Ha b Hinb) (Hb a Hina)) as Hname.
      exfalso. apply Hfresh. rewrite Hname. now apply in_map. }
    subst b. f_equal.
    apply IH; trivial. now apply Permutation_cons_inv in Hperm.
Qed.

(** [os.ReadDir] gives the same listing for every order of enumeration. *)
Lemma sortByName_enumeration es1 es2 :
  Permutation es1 es2 -> NoDup (map Name es1) ->
  sortByName es1 = sortByName es2.
Proof.
  intros Hperm Hnd. apply sorted_listing_unique.
  - apply sortByName_sorted.
  - apply sortByName_sorted.
  - rewrite !sortByName_perm. exact Hperm.
  - apply (Permutation_NoDup (l := map Name es1)); trivial.
    apply Permutation_map, Permutation_sym, sortByName_perm.
Qed.

Lemma map_Name_readEntry readTree es :
  map Name (map (readEntry readTree) es) = map Name es.
Proof.
  rewrite map_map. apply map_ext. now intros [].
Qed.

Lemma readTree_enumeration enum disk :
  (forall es, Permutation (enum es) es) ->
  uniqueNames disk = true ->
  readTree enum disk = readTree (fun es => es) disk.
Proof.
  intros Henum.
  induction disk as [entries err IH] using Listing_tree_ind.
  cbn [uniqueNames readTree]. intros Hu.
  apply andb_true_iff in Hu as [Hnames Hsub]. f_equal.
  assert (Hmap : map (readEntry (readTree enum)) entries =
                 map (readEntry (readTree (fun es => es))) entries).
  { apply map_ext_in. intros e Hin.
    rewrite Forall_forall in IH. specialize (IH e Hin).
    rewrite forallb_forall in Hsub. specialize (Hsub e Hin).
    destruct e as [| name contents |]; cbn in *; trivial.
    now rewrite IH. }
  rewrite Hmap. symmetry.
  apply sortByName_enumeration; [apply Permutation_sym, Henum|].
  rewrite map_Name_readEntry. now apply distinct_NoDup.
Qed.

(** ** The units of [humanize.BigBytes] *)

Lemma oomm_mag left :
  forall base n m mag,
    (snd (oomm left base n m mag) <= mag + left)%nat.
Proof.
  induction left as [|left IH]; intros base n m mag; cbn [oomm].
  - cbn. lia.
  - destruct (n >=? base); [|cbn; lia].
    specialize (IH base (n / base) (n mod base) (S mag)). lia.
Qed.

Lemma siUnit_In size : In (siUnit size) siSizes.
Proof.
  unfold siUnit. destruct (size <? 10); [now left|].
  pose proof (oomm_mag 8 1000 size 0 0) as Hmag.
  destruct (oomm 8 1000 size 0 0) as [[n m] mag]. cbn [snd] in Hmag.
  apply nth_In. cbn. lia.
Qed.

Lemma string_length_app (a b : string) :
  String.length (a ++ b) = (String.length a + String.length b)%nat.
Proof. induction a as [|c a IH]; cbn; [reflexivity | now rewrite IH]. Qed.

Lemma substring_all (b : string) : substring 0 (String.length b) b = b.
Proof. induction b as [|c b IH]; cbn; [reflexivity | now rewrite IH]. Qed.

Lemma substring_app_suffix (a b : string) :
  substring (String.length a) (String.length b) (a ++ b) = b.
Proof. induction a as [|c a IH]; cbn; [apply substring_all | exact IH]. Qed.

Lemma hasSuffix_app (digits suffix : string) :
  hasSuffix suffix (digits ++ suffix) = true.
Proof.
  unfold hasSuffix. rewrite string_length_app.
  replace (String.length digits + String.length suffix - String.length suffix)%nat
    with (String.length digits) by lia.
  rewrite substring_app_suffix, String.eqb_refl, andb_true_r.
  apply Nat.leb_le. lia.
Qed.

Lemma oomm_mag_small left :
  forall (k : nat) n m mag,
    n < 1000 * 1000 ^ Z.of_nat k ->
    (snd (oomm left 1000 n m mag) <= mag + k)%nat.
Proof.
  induction left as [|left IH]; intros k n m mag Hn; cbn [oomm].
  - cbn. lia.
  - destruct (n >=? 1000) eqn:Hge; [|cbn; lia].
    apply Z.geb_le in Hge.
    destruct k as [|k]; [cbn in Hn; lia|].
    assert (Hdiv : n / 1000 < 1000 * 1000 ^ Z.of_nat k).
    { apply Z.div_lt_upper_bound; [lia|].
      rewrite Nat2Z.inj_succ, Z.pow_succ_r in Hn by lia. lia. }
    specialize (IH k (n / 1000) (n mod 1000) (S mag) Hdiv). lia.
Qed.

Lemma siUnit_int64 size : int64_range size -> In (siUnit size) siSizesInt64.
Proof.
  intros [_ Hsize]. unfold siUnit. destruct (size <? 10); [now left|].
  pose proof (oomm_mag_small 8 6 size 0 0 ltac:(cbn; lia)) as Hmag.
  destruct (oomm 8 1000 size 0 0) as [[n m] mag]. cbn [snd] in Hmag.
  assert (Hcases : (mag = 0 \/ mag = 1 \/ mag = 2 \/ mag = 3 \/ mag = 4
                    \/ mag = 5 \/ mag = 6)%nat) by lia.
  cbn. intuition (subst; auto 10).
Qed.

Lemma endsWithUnit_siUnit (digits : string) (size : Z) :
  int64_range size ->
  endsWithUnit siSizesInt64 (digits ++ " " ++ siUnit size) = true.
Proof.
  intros Hsize. unfold endsWithUnit. apply existsb_exists. exists (siUnit size).
  split; [now apply siUnit_int64 | apply hasSuffix_app].
Qed.

Lemma humanizeLib_rendersUnit : @rendersUnit humanizeLib siUnit.
Proof. intros size _. now exists (humanDigits size). Qed.

(** *** The sizes on the printed lines are [int64] values *)

Section PrintedInt64.
Context `{Lib}.
Import Current.

Lemma reportOut_int64 v dir st entry entrySize closing :
  int64_range entrySize ->
  Forall int64Line (reportOut v dir st entry entrySize closing).
Proof.
  intros Hsize. unfold reportOut.
  assert (H0 : int64Line Println) by (cbn; unfold int64Line, int64_range; cbn; lia).
  destruct (entrySize >? sizeThreshold v); [|constructor].
  repeat (apply Forall_app; split).
  - destruct (_ && _); [apply Forall_cons; [exact H0|]|]; apply Forall_nil.
  - apply Forall_cons; [exact Hsize | apply Forall_nil].
  - destruct closing; [apply Forall_cons; [exact H0|]|]; apply Forall_nil.
Qed.

Lemma loopBody_int64 v dir st entry w :
  subdirs (fun contents =>
             sizesInt64 contents = true ->
             forall dir w,
               Forall int64Line (stdout w) ->
               Forall int64Line (stdout (fst (getDirSize v dir contents w))))
          entry ->
  entrySizesInt64 sizesInt64 entry = true ->
  Forall int64Line (stdout w) ->
  Forall int64Line (stdout (fst (loopBody (getDirSize v) v dir st entry w))).
Proof.
  intros IH Hwf Hw.
  assert (Hreport : forall entrySize closing w1,
             int64_range entrySize ->
             Forall int64Line (stdout w1) ->
             Forall int64Line
               (stdout (fst (report v dir st entry entrySize closing w1)))).
  { intros. rewrite report_run. cbn. apply Forall_app. split; trivial.
    now apply reportOut_int64. }
  destruct entry as [name [fi|] [e|] | name contents | name];
    cbn [entrySizesInt64 subdirs] in *.
  - rewrite loopBody_info_err. assumption.
  - rewrite loopBody_file. apply Hreport; trivial.
    unfold int64_range. lia.
  - rewrite loopBody_nil_info. assumption.
  - rewrite loopBody_nil_info. assumption.
  - destruct (shouldSkipDir v (Join dir name)) eqn:Hskip.
    + rewrite loopBody_skipped by assumption. assumption.
    + specialize (IH Hwf (Join dir name) w Hw).
      destruct (getDirSize v (Join dir name) contents w)
        as [w2 [[[size n] err]|]] eqn:E.
      * pose proof (getDirSize_err_nil _ _ _ _ _ _ _ _ E) as ->.
        rewrite (loopBody_subdir _ _ _ _ _ _ _ _ _ _ Hskip E).
        apply Hreport; [|exact IH].
        rewrite (getDirSize_size _ _ _ _ _ _ _ _ E). apply wrap64_range.
      * now rewrite (loopBody_subdir_panic _ _ _ _ _ _ _ _ Hskip E).
  - rewrite loopBody_other. apply Hreport; trivial.
    unfold int64_range. lia.
Qed.

Lemma getDirSize_int64 v l :
  sizesInt64 l = true ->
  forall dir w,
    Forall int64Line (stdout w) ->
    Forall int64Line (stdout (fst (getDirSize v dir l w))).
Proof.
  induction l as [dirEntries [e|] IH] using Listing_tree_ind;
    intros Hwf dir w Hw.
  - now rewrite getDirSize_unreadable.
  - rewrite getDirSize_readable. cbn [sizesInt64] in Hwf.
    rewrite forallb_forall in Hwf.
    apply (bind_world_inv (fun w => Forall int64Line (stdout w))); trivial.
    apply (forEach_world_inv (fun w => Forall int64Line (stdout w))).
    rewrite Forall_forall in IH |- *. intros entry Hin st w1 Hw1.
    apply loopBody_int64; trivial.
    + exact (IH entry Hin).
    + now apply Hwf.
Qed.

Lemma visualise_int64 v dir l w :
  sizesInt64 l = true ->
  Forall int64Line (stdout w) ->
  Forall int64Line (stdout (fst (visualise v dir l w))).
Proof.
  intros Hwf Hw. unfold visualise, bind.
  pose proof (getDirSize_int64 v l Hwf dir w Hw) as Hwalk.
  destruct (getDirSize v dir l w) as [w1 [[[size n] err]|]] eqn:E;
    [|exact Hwalk].
  pose proof (getDirSize_err_nil _ _ _ _ _ _ _ _ E) as ->.
  destruct (size >? sizeThreshold v); [|exact Hwalk].
  cbn. rewrite <- app_assoc. apply Forall_app. split; [exact Hwalk|].
  apply Forall_cons; [|apply Forall_cons; [|apply Forall_nil]].
  - unfold int64Line. cbn.
    rewrite (getDirSize_size _ _ _ _ _ _ _ _ E). apply wrap64_range.
  - unfold int64Line, int64_range. cbn. lia.
Qed.
End PrintedInt64.

(** * The claims *)

Section Claims.
Context `{Lib}.
Import Current.

(** C1, as amended.  The size returned by [getDirSize] for a directory is
    the exact sum of the sizes of the regular files of its subtree that are
    reached without crossing an ignored or an unreadable subdirectory,
    reduced to [int64] by wrap-around; it is that exact sum whenever the sum
    fits in an [int64].  Ignored and unreadable subtrees add nothing. *)
Theorem getDirSize_size_wrapped_sum v dir l w w' size n err :
  getDirSize v dir l w = (w', Some (size, n, err)) ->
  size = wrap64 (treeSize v dir l) /\
  (int64_range (treeSize v dir l) -> size = treeSize v dir l).
Proof.
  intros E. apply getDirSize_size in E. split; [exact E|].
  intros Hrange. rewrite E. now apply wrap64_id.
Qed.

(** C4, as amended.  When no file size is negative and the exact total of
    the root fits in an [int64], the sizes on the lines printed for regular
    files during the scan sum to at most the cumulative size computed for
    the root. *)
Theorem printed_files_within_total v dir l w w' size n err :
  sizesNonneg l = true ->
  int64_range (treeSize v dir l) ->
  getDirSize v dir l w = (w', Some (size, n, err)) ->
  exists out,
    stdout (fst (visualise v dir l w)) = (stdout w ++ out)%list /\
    regularBytes out <= size.
Proof.
  intros Hnn Hrange E.
  exists (stdout (fst (visualise v dir l emptyWorld))). split.
  - now rewrite (framed_visualise v dir l w).
  - apply getDirSize_size in E. rewrite wrap64_id in E by assumption.
    rewrite visualise_regularBytes, E.
    apply (getDirSize_regularBytes v l Hnn dir emptyWorld).
Qed.

(** C5, as amended.  Every line printed on standard output, for files,
    directories and the root, has the form [<path>: <size>], where [<size>]
    is the entry's [int64] size as [humanize.BigBytes] renders it: a number,
    a space and a decimal (SI) unit, one of B, kB, MB, GB, TB, PB, EB. *)
Theorem sizes_rendered_in_SI_units v dir l w :
  rendersUnit siUnit ->
  sizesInt64 l = true ->
  exists out,
    stdout (fst (visualise v dir l w)) = (stdout w ++ out)%list /\
    stdoutText (fst (visualise v dir l w)) =
    (stdoutText w ++ fold_right (fun o text => render o ++ text) "" out)%string /\
    Forall (sizeLine siSizesInt64) out.
Proof.
  intros Hlib Hwf.
  exists (stdout (fst (visualise v dir l emptyWorld))).
  rewrite (framed_visualise v dir l w). cbn [fst].
  split; [reflexivity|]. split; [apply stdoutText_append|].
  pose proof (visualise_int64 v dir l emptyWorld Hwf ltac:(constructor))
    as Hsizes.
  rewrite Forall_forall in Hsizes |- *.
  intros [|regular path size] Hin; cbn; [trivial|].
  split; [reflexivity|].
  specialize (Hsizes _ Hin). unfold int64Line in Hsizes. cbn in Hsizes.
  destruct (Hlib size Hsizes) as [digits ->].
  now apply endsWithUnit_siUnit.
Qed.

(** C6.  The threshold comparison is strict for files, directories and the
    root: every line [visualise] prints shows a size strictly greater than
    the threshold, so no line is printed for an entry whose size equals the
    threshold. *)
Theorem threshold_strict v dir l w :
  exists out,
    stdout (fst (visualise v dir l w)) = (stdout w ++ out)%list /\
    Forall (aboveThreshold (sizeThreshold v)) out /\
    forall regular path, ~ In (Printf regular path (sizeThreshold v)) out.
Proof.
  exists (stdout (fst (visualise v dir l emptyWorld))).
  assert (Hout : Forall (aboveThreshold (sizeThreshold v))
                        (stdout (fst (visualise v dir l emptyWorld)))).
  { apply visualise_aboveThreshold. constructor. }
  repeat split.
  - now rewrite (framed_visualise v dir l w).
  - exact Hout.
  - intros regular path Hin. rewrite Forall_forall in Hout.
    apply Hout in Hin. simpl in Hin. lia.
Qed.

(** C7.  A directory entry whose full joined path matches the ignore-regexp
    is not traversed: whatever it contains, the loop body leaves the running
    size, the printed-file count and standard output as they were and logs
    one warning; the size and the printed lines of the parent are those of
    the same listing without the entry. *)
Theorem ignored_dir_skipped v dir name contents :
  shouldSkipDir v (Join dir name) = true ->
  (forall st w,
      loopBody (getDirSize v) v dir st (Dir name contents) w =
      (mkWorld (stdout w)
         (stderr w ++ ["warning: ignoring directory '" ++ Join dir name
                       ++ "' due to matched ignore-regexp"]),
       Some st)) /\
  (forall before after w,
      snd (getDirSize v dir
             (ReadDir (before ++ Dir name contents :: after) None) w) =
      snd (getDirSize v dir (ReadDir (before ++ after) None) w) /\
      stdout (fst (getDirSize v dir
                     (ReadDir (before ++ Dir name contents :: after) None) w)) =
      stdout (fst (getDirSize v dir (ReadDir (before ++ after) None) w))).
Proof.
  intros Hskip. split.
  - intros st w. now apply loopBody_skipped.
  - intros before after w.
    exact (getDirSize_without_skipped v dir name contents before after w Hskip).
Qed.

(** C9.  The scan is deterministic: for an unchanged tree, with distinct
    names in every directory, and a fixed configuration, two runs of
    [visualise] are given the same listings by [os.ReadDir], in whatever
    order the system enumerates the entries on each run, and, from whatever
    was written before, return the same and append the same events, hence
    the same text line for line, to standard output. *)
Theorem scan_deterministic v dir disk enum1 enum2 w1 w2 :
  uniqueNames disk = true ->
  (forall es, Permutation (enum1 es) es) ->
  (forall es, Permutation (enum2 es) es) ->
  exists out,
    stdout (fst (visualise v dir (readTree enum1 disk) w1))
    = (stdout w1 ++ stdout out)%list /\
    stdout (fst (visualise v dir (readTree enum2 disk) w2))
    = (stdout w2 ++ stdout out)%list /\
    stdoutText (fst (visualise v dir (readTree enum1 disk) w1))
    = (stdoutText w1 ++ stdoutText out)%string /\
    stdoutText (fst (visualise v dir (readTree enum2 disk) w2))
    = (stdoutText w2 ++ stdoutText out)%string /\
    snd (visualise v dir (readTree enum1 disk) w1)
    = snd (visualise v dir (readTree enum2 disk) w2).
Proof.
  intros Hunique Henum1 Henum2.
  rewrite (readTree_enumeration enum1 disk Henum1 Hunique).
  rewrite (readTree_enumeration enum2 disk Henum2 Hunique).
  set (l := readTree (fun es => es) disk).
  exists (fst (visualise v dir l emptyWorld)).
  rewrite (framed_visualise v dir l w1), (framed_visualise v dir l w2).
  cbn [fst snd]. rewrite !stdoutText_append. repeat split; reflexivity.
Qed.

(** C10.  With no ignore-regexp configured ([ignoreRegexp] nil), the
    current walk is the earlier walk: on every tree [getDirSize] returns the
    same pair and leaves the same output and log, and so does
    [visualise]. *)
Theorem getDirSize_matches_earlier v dir l w :
  ignoreRegexp v = None ->
  getDirSize v dir l w = Earlier.getDirSize dir (sizeThreshold v) l w /\
  visualise v dir l w =
  Earlier.visualise (Earlier.mkVisualiser (sizeThreshold v)) dir l w.
Proof.
  intros Hnil. split.
  - now apply getDirSize_same.
  - unfold visualise, Earlier.visualise.
    apply bind_ext; [intros w1; now apply getDirSize_same | reflexivity].
Qed.
End Claims.

(** ** The claims on concrete trees *)

Section Concrete.
#[local] Existing Instance exampleLib.
Import Current.

(** Counterexample to C1 as stated: for two files of 2^62 bytes the
    returned size is -2^63, the exact sum is 2^63. *)
Lemma getDirSize_size_not_exact_sum :
  snd (getDirSize v100 "/root" twoHuge emptyWorld) = Some (- 2 ^ 63, 2, None)
  /\ treeSize v100 "/root" twoHuge = 2 ^ 63
  /\ - 2 ^ 63 <> treeSize v100 "/root" twoHuge.
Proof. repeat split; try reflexivity. vm_compute. discriminate. Qed.

Lemma getDirSize_size_wrapped_sum_witness :
  getDirSize v100 "/root" scenarioA emptyWorld =
  (mkWorld [Println; Printf true "/root/b.txt" (150 * MB)] [],
   Some (200 * MB, 1, None))
  /\ 200 * MB = wrap64 (treeSize v100 "/root" scenarioA)
  /\ (int64_range (treeSize v100 "/root" scenarioA) ->
      200 * MB = treeSize v100 "/root" scenarioA).
Proof.
  split; [reflexivity|].
  apply (getDirSize_size_wrapped_sum v100 "/root" scenarioA emptyWorld
           (mkWorld [Println; Printf true "/root/b.txt" (150 * MB)] [])
           (200 * MB) 1 None).
  reflexivity.
Defined.

(** C2: a regular file whose [Info] fails with a nil [FileInfo].  The call
    [info.Size()] comes before the test of [err]: the walk panics, nothing
    is logged and no next entry is reached. *)
Theorem info_failure_panics :
  getDirSize v100 "/root" vanished emptyWorld = (emptyWorld, None) /\
  visualise v100 "/root" vanished emptyWorld = (emptyWorld, None).
Proof. split; reflexivity. Qed.

(** C3: after a subdirectory that printed a file, the flag stays set, and
    the line of the regular file [/root/b] is followed by a closing blank
    line. *)
Theorem closing_line_after_file :
  getDirSize v100 "/root" grouped emptyWorld =
  (mkWorld [Println; Printf true "/root/a/x" (150 * MB);
            Printf false "/root/a" (150 * MB); Println;
            Println; Printf true "/root/b" (150 * MB); Println] [],
   Some (300 * MB, 1, None)).
Proof. reflexivity. Qed.

(** Counterexample to C4 as stated: the three printed entries [/root/d/f],
    [/root/d] and [/root] are distinct, their sizes sum to 450 MB, the root
    has 150 MB. *)
Lemma printed_sizes_exceed_total :
  snd (getDirSize v100 "/root" nested emptyWorld) = Some (150 * MB, 0, None)
  /\ stdout (fst (visualise v100 "/root" nested emptyWorld)) =
     [Println; Printf true "/root/d/f" (150 * MB); Printf false "/root/d" (150 * MB);
      Println; Printf false "/root" (150 * MB); Println]
  /\ printedBytes (stdout (fst (visualise v100 "/root" nested emptyWorld)))
     = 450 * MB
  /\ ~ (450 * MB <= 150 * MB).
Proof. repeat split; try reflexivity. unfold MB. lia. Qed.

Lemma printed_files_within_total_witness :
  sizesNonneg nested = true
  /\ int64_range (treeSize v100 "/root" nested)
  /\ exists out,
      stdout (fst (visualise v100 "/root" nested emptyWorld)) =
      (stdout emptyWorld ++ out)%list
      /\ regularBytes out <= 150 * MB.
Proof.
  assert (Hrange : int64_range (treeSize v100 "/root" nested)).
  { split; [vm_compute; discriminate | vm_compute; reflexivity]. }
  split; [reflexivity|]. split; [exact Hrange|].
  apply (printed_files_within_total v100 "/root" nested emptyWorld
           (mkWorld [Println; Printf true "/root/d/f" (150 * MB);
                     Printf false "/root/d" (150 * MB); Println] [])
           (150 * MB) 0 None).
  - reflexivity.
  - exact Hrange.
  - reflexivity.
Defined.

Lemma ignored_dir_skipped_witness :
  shouldSkipDir vIgnoreTmp (Join "/root" "tmp") = true
  /\ snd (getDirSize vIgnoreTmp "/root" scenarioD emptyWorld) =
     snd (getDirSize vIgnoreTmp "/root"
            (ReadDir [file "a.txt" (150 * MB); file "b.txt" (50 * MB)] None)
            emptyWorld).
Proof.
  split; [reflexivity|].
  apply (proj2 (ignored_dir_skipped vIgnoreTmp "/root" "tmp"
                  (ReadDir [file "big.bin" (500 * MB)] None) eq_refl)
           [file "a.txt" (150 * MB)] [file "b.txt" (50 * MB)] emptyWorld).
Defined.

(** C8: the second entry of [/root] is a directory with a regular file whose
    [Info] fails with a nil [FileInfo].  The walk prints [/root/big], then
    panics inside [/root/cache]: [/root/huge] and the root are never
    reached, nothing is logged, nothing is returned. *)
Theorem walk_aborts_on_info_failure :
  visualise v100 "/root" aborted emptyWorld =
  (mkWorld [Println; Printf true "/root/big" (150 * MB)] [], None)
  /\ reachesNilInfo v100 "/root" aborted = true.
Proof. split; reflexivity. Qed.

Lemma getDirSize_matches_earlier_witness :
  ignoreRegexp v100 = None
  /\ getDirSize v100 "/root" grouped emptyWorld =
     Earlier.getDirSize "/root" (100 * MB) grouped emptyWorld
  /\ visualise v100 "/root" grouped emptyWorld =
     Earlier.visualise (Earlier.mkVisualiser (100 * MB)) "/root" grouped
                       emptyWorld.
Proof.
  split; [reflexivity|].
  apply (getDirSize_matches_earlier v100 "/root" grouped emptyWorld).
  reflexivity.
Defined.
Lemma scan_deterministic_witness :
  uniqueNames unsortedDisk = true
  /\ readTree (@rev DirEntry) unsortedDisk =
     ReadDir [file "a.txt" (50 * MB);
              folder "b" [file "x" (150 * MB); file "y" (200 * MB)];
              file "c.txt" (150 * MB)] None
  /\ exists out,
      stdout (fst (visualise v100 "/root"
                     (readTree (fun es => es) unsortedDisk) emptyWorld))
      = (stdout emptyWorld ++ stdout out)%list /\
      stdout (fst (visualise v100 "/root"
                     (readTree (@rev DirEntry) unsortedDisk) emptyWorld))
      = (stdout emptyWorld ++ stdout out)%list /\
      stdoutText (fst (visualise v100 "/root"
                         (readTree (fun es => es) unsortedDisk) emptyWorld))
      = (stdoutText emptyWorld ++ stdoutText out)%string /\
      stdoutText (fst (visualise v100 "/root"
                         (readTree (@rev DirEntry) unsortedDisk) emptyWorld))
      = (stdoutText emptyWorld ++ stdoutText out)%string /\
      snd (visualise v100 "/root" (readTree (fun es => es) unsortedDisk)
                     emptyWorld)
      = snd (visualise v100 "/root" (readTree (@rev DirEntry) unsortedDisk)
                       emptyWorld).
Proof.
  split; [reflexivity|]. split; [reflexivity|].
  apply (scan_deterministic v100 "/root" unsortedDisk
           (fun es => es) (@rev DirEntry) emptyWorld emptyWorld).
  - reflexivity.
  - intros es. apply Permutation_refl.
  - intros es. apply Permutation_sym, Permutation_rev.
Defined.

(** The walk follows the order of the listing it is given: on the same
    entries in two orders it prints the lines in two orders.  The order
    [os.ReadDir] fixes is what makes two runs agree. *)
Lemma listing_order_matters :
  stdout (fst (visualise v100 "/root" unsortedDisk emptyWorld)) <>
  stdout (fst (visualise v100 "/root"
                 (ReadDir [file "a.txt" (50 * MB);
                           folder "b" [file "x" (150 * MB); file "y" (200 * MB)];
                           file "c.txt" (150 * MB)] None) emptyWorld)).
Proof. vm_compute. discriminate. Qed.
End Concrete.

(** ** The units on concrete trees *)

Section ConcreteUnits.
#[local] Existing Instance humanizeLib.
Import Current.

(** Counterexample to C5 as stated: on Scenario A the program prints
    [/root/b.txt: 150 MB] and [/root: 200 MB]; MB is a decimal unit, and the
    size of the first line ends in no binary unit. *)
Lemma sizes_not_in_binary_units :
  stdoutText (fst (visualise vSI "/root" scenarioA emptyWorld)) =
  (newline ++ "/root/b.txt: 150 MB" ++ newline
   ++ "/root: 200 MB" ++ newline ++ newline)%string
  /\ BigBytes (150 * MB) = "150 MB"
  /\ endsWithUnit iecSizes (BigBytes (150 * MB)) = false
  /\ ~ Forall (sizeLine iecSizes)
              (stdout (fst (visualise vSI "/root" scenarioA emptyWorld))).
Proof.
  split; [reflexivity|]. split; [reflexivity|]. split; [reflexivity|].
  intros Hlines. rewrite Forall_forall in Hlines.
  destruct (Hlines (Printf true "/root/b.txt" (150 * MB))) as [_ Hunit].
  - right. left. reflexivity.
  - vm_compute in Hunit. discriminate.
Qed.

Lemma sizes_rendered_in_SI_units_witness :
  rendersUnit siUnit
  /\ sizesInt64 scenarioA = true
  /\ exists out,
      stdout (fst (visualise vSI "/root" scenarioA emptyWorld))
      = (stdout emptyWorld ++ out)%list /\
      stdoutText (fst (visualise vSI "/root" scenarioA emptyWorld))
      = (stdoutText emptyWorld
         ++ fold_right (fun o text => render o ++ text) "" out)%string /\
      Forall (sizeLine siSizesInt64) out.
Proof.
  split; [exact humanizeLib_rendersUnit|]. split; [reflexivity|].
  apply (sizes_rendered_in_SI_units vSI "/root" scenarioA emptyWorld).
  - exact humanizeLib_rendersUnit.
  - reflexivity.
Defined.
End ConcreteUnits.

(** * Further properties *)

(** ** The values [getDirSize] returns *)

Section ReturnedValues.
Context `{Lib}.
Import Current.

Lemma reportCount_printsHere v st entry fi name :
  entry = Regular name (Some fi) None ->
  reportCount v st entry (Size fi) =
  if printsHere v entry then add64 (filesPrintedInThisDir st) 1
  else filesPrintedInThisDir st.
Proof.
  intros ->. unfold reportCount, printsHere. cbn [IsRegular].
  now rewrite andb_true_r.
Qed.

Lemma loopBody_count v dir st entry w w1 st1 :
  int64_range (filesPrintedInThisDir st) ->
  loopBody (getDirSize v) v dir st entry w = (w1, Some st1) ->
  filesPrintedInThisDir st1 =
  wrap64 (filesPrintedInThisDir st + (if printsHere v entry then 1 else 0)).
Proof.
  intros Hst.
  assert (Hsame : filesPrintedInThisDir st =
                  wrap64 (filesPrintedInThisDir st + 0)).
  { rewrite Z.add_0_r. symmetry. now apply wrap64_id. }
  destruct entry as [name [fi|] [e|] | name contents | name];
    cbn [printsHere].
  - rewrite loopBody_info_err. now intros [= _ <-].
  - rewrite loopBody_file, report_run. intros [= _ <-]. cbn.
    rewrite (reportCount_printsHere v st _ fi name eq_refl). cbn [printsHere].
    destruct (Size fi >? sizeThreshold v); [reflexivity | exact Hsame].
  - rewrite loopBody_nil_info. discriminate.
  - rewrite loopBody_nil_info. discriminate.
  - destruct (shouldSkipDir v (Join dir name)) eqn:Hskip.
    + rewrite loopBody_skipped by assumption. now intros [= _ <-].
    + destruct (getDirSize v (Join dir name) contents w)
        as [w2 [[[size n] err]|]] eqn:E.
      * pose proof (getDirSize_err_nil _ _ _ _ _ _ _ _ E) as ->.
        rewrite (loopBody_subdir _ _ _ _ _ _ _ _ _ _ Hskip E), report_run.
        intros [= _ <-]. cbn. unfold reportCount. cbn [IsRegular].
        rewrite andb_false_r. exact Hsame.
      * rewrite (loopBody_subdir_panic _ _ _ _ _ _ _ _ Hskip E). discriminate.
  - rewrite loopBody_other, report_run. intros [= _ <-]. cbn.
    unfold reportCount. cbn [IsRegular]. rewrite andb_false_r. exact Hsame.
Qed.

Lemma forEach_count v dir dirEntries :
  forall st w w' st',
    int64_range (filesPrintedInThisDir st) ->
    forEach (loopBody (getDirSize v) v dir) dirEntries st w = (w', Some st') ->
    filesPrintedInThisDir st' =
    wrap64 (filesPrintedInThisDir st
            + Z.of_nat (List.length (filter (printsHere v) dirEntries))).
Proof.
  induction dirEntries as [|entry es IH]; intros st w w' st' Hst; cbn [forEach].
  - intros [= _ <-]. cbn. rewrite Z.add_0_r. symmetry. now apply wrap64_id.
  - intros E. apply bind_Some in E as (st1 & w1 & E1 & E2).
    pose proof (loopBody_count _ _ _ _ _ _ _ Hst E1) as Hst1.
    rewrite (IH _ _ _ _ ltac:(rewrite Hst1; apply wrap64_range) E2), Hst1.
    rewrite wrap64_add_l. f_equal. cbn [filter].
    destruct (printsHere v entry); cbn [List.length]; lia.
Qed.

(** X1.  The count [getDirSize] returns is the number of regular files listed
    directly in the directory whose size resolved and exceeds the threshold
    (files of subdirectories are not counted), reduced to 64 bits; both
    returned numbers lie in the [int64] range. *)
Theorem getDirSize_count v dir l w w' size n err :
  getDirSize v dir l w = (w', Some (size, n, err)) ->
  n = wrap64 (printedHere v l) /\ int64_range n /\ int64_range size.
Proof.
  intros E.
  assert (Hn : n = wrap64 (printedHere v l)).
  { destruct l as [dirEntries [e|]].
    - rewrite getDirSize_unreadable in E. injection E as _ _ <- _.
      reflexivity.
    - rewrite getDirSize_readable in E.
      apply bind_Some in E as (st & w1 & E & [= _ _ <- _]).
      apply forEach_count in E; [|cbn; unfold int64_range; lia].
      exact E. }
  split; [exact Hn|]. split.
  - rewrite Hn. apply wrap64_range.
  - rewrite (getDirSize_size _ _ _ _ _ _ _ _ E). apply wrap64_range.
Qed.
End ReturnedValues.

(** ** The lines printed for regular files *)

Lemma regularLines_app (a b : list Out) :
  regularLines (a ++ b) = (regularLines a ++ regularLines b)%list.
Proof. apply filter_app. Qed.

Section PrintedFiles.
Context `{Lib}.
Import Current.

Lemma printedFiles_app v a b :
  printedFiles v (a ++ b) = (printedFiles v a ++ printedFiles v b)%list.
Proof. unfold printedFiles. now rewrite filter_app, map_app. Qed.

Lemma regularLines_reportOut v dir st entry entrySize closing :
  regularLines (reportOut v dir st entry entrySize closing) =
  if (entrySize >? sizeThreshold v) && IsRegular entry
  then [Printf true (Join dir (Name entry)) entrySize] else [].
Proof.
  unfold reportOut.
  destruct (entrySize >? sizeThreshold v); [|reflexivity].
  destruct (IsRegular entry); cbn [andb];
    [destruct (filesPrintedInThisDir st =? 0)|]; destruct closing; reflexivity.
Qed.

Lemma loopBody_regularLines v dir st entry w w1 st1 :
  subdirs (fun contents =>
             forall dir w w' r,
               getDirSize v dir contents w = (w', Some r) ->
               regularLines (stdout w') =
               (regularLines (stdout w)
                ++ printedFiles v (reachedFiles v dir contents))%list) entry ->
  loopBody (getDirSize v) v dir st entry w = (w1, Some st1) ->
  regularLines (stdout w1) =
  (regularLines (stdout w)
   ++ printedFiles v (entryFiles (reachedFiles v) v dir entry))%list.
Proof.
  intros IH.
  destruct entry as [name [fi|] [e|] | name contents | name];
    cbn [entryFiles].
  - rewrite loopBody_info_err. intros [= <- _]. cbn. now rewrite app_nil_r.
  - rewrite loopBody_file, report_run. intros [= <- _]. cbn [stdout].
    rewrite regularLines_app, regularLines_reportOut. cbn [IsRegular Name].
    rewrite andb_true_r. unfold printedFiles, aboveThresholdFile. cbn.
    now destruct (Size fi >? sizeThreshold v).
  - rewrite loopBody_nil_info. discriminate.
  - rewrite loopBody_nil_info. discriminate.
  - destruct (shouldSkipDir v (Join dir name)) eqn:Hskip.
    + rewrite loopBody_skipped by assumption. intros [= <- _]. cbn.
      now rewrite app_nil_r.
    + destruct (getDirSize v (Join dir name) contents w)
        as [w2 [[[size n] err]|]] eqn:E.
      * pose proof (getDirSize_err_nil _ _ _ _ _ _ _ _ E) as ->.
        rewrite (loopBody_subdir _ _ _ _ _ _ _ _ _ _ Hskip E), report_run.
        intros [= <- _]. cbn [stdout].
        rewrite regularLines_app, regularLines_reportOut. cbn [IsRegular].
        rewrite andb_false_r, app_nil_r. exact (IH _ _ _ _ E).
      * rewrite (loopBody_subdir_panic _ _ _ _ _ _ _ _ Hskip E). discriminate.
  - rewrite loopBody_other, report_run. intros [= <- _]. cbn [stdout].
    rewrite regularLines_app, regularLines_reportOut. cbn [IsRegular].
    rewrite andb_false_r. reflexivity.
Qed.

Lemma forEach_regularLines v dir dirEntries :
  Forall (subdirs (fun contents =>
             forall dir w w' r,
               getDirSize v dir contents w = (w', Some r) ->
               regularLines (stdout w') =
               (regularLines (stdout w)
                ++ printedFiles v (reachedFiles v dir contents))%list))
         dirEntries ->
  forall st w w' st',
    forEach (loopBody (getDirSize v) v dir) dirEntries st w = (w', Some st') ->
    regularLines (stdout w') =
    (regularLines (stdout w)
     ++ printedFiles v (flat_map (entryFiles (reachedFiles v) v dir) dirEntries))%list.
Proof.
  induction 1 as [|entry es Hentry _ IH]; intros st w w' st'; cbn [forEach flat_map].
  - intros [= <- _]. cbn. now rewrite app_nil_r.
  - intros E. apply bind_Some in E as (st1 & w1 & E1 & E2).
    rewrite (IH _ _ _ _ E2), (loopBody_regularLines _ _ _ _ _ _ _ Hentry E1).
    now rewrite printedFiles_app, app_assoc.
Qed.

Lemma getDirSize_regularLines v l :
  forall dir w w' r,
    getDirSize v dir l w = (w', Some r) ->
    regularLines (stdout w') =
    (regularLines (stdout w) ++ printedFiles v (reachedFiles v dir l))%list.
Proof.
  induction l as [dirEntries [e|] IH] using Listing_tree_ind;
    intros dir w w' r.
  - rewrite getDirSize_unreadable. intros [= <- _]. cbn. now rewrite app_nil_r.
  - rewrite getDirSize_readable. intros E.
    apply bind_Some in E as (st & w1 & E & [= <- _]).
    exact (forEach_regularLines _ _ _ IH _ _ _ _ E).
Qed.

(** X2.  When [visualise] returns, the lines it printed for regular files are
    exactly the regular files the walk reaches (not under an ignored or
    unreadable directory, size resolved) whose size exceeds the threshold:
    each once, with its full path and size, in the order of the walk. *)
Theorem visualise_prints_each_file_once v dir l w w' :
  visualise v dir l w = (w', Some tt) ->
  regularLines (stdout w') =
  (regularLines (stdout w) ++ printedFiles v (reachedFiles v dir l))%list.
Proof.
  unfold visualise. intros E.
  apply bind_Some in E as ([[size n] err] & w1 & E1 & E2).
  rewrite <- (getDirSize_regularLines _ _ _ _ _ _ E1).
  pose proof (getDirSize_err_nil _ _ _ _ _ _ _ _ E1) as ->.
  destruct (size >? sizeThreshold v).
  - injection E2 as <-. cbn [stdout].
    rewrite <- app_assoc, regularLines_app. cbn. now rewrite app_nil_r.
  - now injection E2 as <-.
Qed.
End PrintedFiles.

(** ** No printed size exceeds the size of the root *)

Lemma sumZ_map_nonneg {A} (f : A -> Z) (xs : list A) :
  Forall (fun y => 0 <= f y) xs -> 0 <= sumZ (map f xs).
Proof.
  induction 1 as [|y ys Hy _ IH]; unfold sumZ in *; cbn; lia.
Qed.

Lemma sumZ_map_upper {A} (f : A -> Z) (xs : list A) (x : A) :
  Forall (fun y => 0 <= f y) xs -> In x xs -> f x <= sumZ (map f xs).
Proof.
  induction 1 as [|y ys Hy Hys IH]; intros Hin; [contradiction|].
  pose proof (sumZ_map_nonneg f ys Hys) as Hrest.
  destruct Hin as [->|Hin]; [|specialize (IH Hin)];
    unfold sumZ in *; cbn; lia.
Qed.

Section Bounded.
Context `{Lib}.
Import Current.

Lemma reportOut_sizeAtMost v dir st entry entrySize closing bound :
  0 <= bound -> entrySize <= bound ->
  Forall (sizeAtMost bound) (reportOut v dir st entry entrySize closing).
Proof.
  intros H0 Hle. unfold reportOut.
  destruct (entrySize >? sizeThreshold v); [|constructor].
  repeat (apply Forall_app; split).
  - destruct (_ && _); repeat constructor. exact H0.
  - repeat constructor. exact Hle.
  - destruct closing; repeat constructor. exact H0.
Qed.

Lemma loopBody_sizeAtMost v dir st entry w bound :
  subdirs (fun contents =>
             sizesNonneg contents = true ->
             forall dir bound w,
               treeSize v dir contents <= bound -> bound < 2 ^ 63 ->
               Forall (sizeAtMost bound) (stdout w) ->
               Forall (sizeAtMost bound)
                      (stdout (fst (getDirSize v dir contents w)))) entry ->
  entryNonneg sizesNonneg entry = true ->
  entryTotal (treeSize v) v dir entry <= bound ->
  0 <= bound -> bound < 2 ^ 63 ->
  Forall (sizeAtMost bound) (stdout w) ->
  Forall (sizeAtMost bound)
         (stdout (fst (loopBody (getDirSize v) v dir st entry w))).
Proof.
  intros IH Hnn Hle H0 Hbound Hw.
  assert (Hreport : forall entrySize closing w1,
             entrySize <= bound ->
             Forall (sizeAtMost bound) (stdout w1) ->
             Forall (sizeAtMost bound)
               (stdout (fst (report v dir st entry entrySize closing w1)))).
  { intros. rewrite report_run. cbn. apply Forall_app. split; trivial.
    now apply reportOut_sizeAtMost. }
  destruct entry as [name [fi|] [e|] | name contents | name];
    cbn [entryTotal entryNonneg subdirs] in *.
  - rewrite loopBody_info_err. assumption.
  - rewrite loopBody_file. now apply Hreport.
  - rewrite loopBody_nil_info. assumption.
  - rewrite loopBody_nil_info. assumption.
  - destruct (shouldSkipDir v (Join dir name)) eqn:Hskip.
    + rewrite loopBody_skipped by assumption. assumption.
    + specialize (IH Hnn (Join dir name) bound w Hle Hbound Hw).
      pose proof (treeSize_nonneg v contents Hnn (Join dir name)) as Hpos.
      destruct (getDirSize v (Join dir name) contents w)
        as [w2 [[[size n] err]|]] eqn:E.
      * pose proof (getDirSize_err_nil _ _ _ _ _ _ _ _ E) as ->.
        rewrite (loopBody_subdir _ _ _ _ _ _ _ _ _ _ Hskip E).
        apply Hreport; [|exact IH].
        rewrite (getDirSize_size _ _ _ _ _ _ _ _ E), wrap64_id; [exact Hle|].
        unfold int64_range. lia.
      * now rewrite (loopBody_subdir_panic _ _ _ _ _ _ _ _ Hskip E).
  - rewrite loopBody_other. now apply Hreport.
Qed.

Lemma getDirSize_sizeAtMost v l :
  sizesNonneg l = true ->
  forall dir bound w,
    treeSize v dir l <= bound -> bound < 2 ^ 63 ->
    Forall (sizeAtMost bound) (stdout w) ->
    Forall (sizeAtMost bound) (stdout (fst (getDirSize v dir l w))).
Proof.
  induction l as [dirEntries [e|] IH] using Listing_tree_ind;
    intros Hnn dir bound w Hle Hbound Hw.
  - now rewrite getDirSize_unreadable.
  - rewrite getDirSize_readable. cbn [treeSize sizesNonneg] in Hle, Hnn.
    rewrite forallb_forall in Hnn.
    assert (Hpos : Forall (fun e => 0 <= entryTotal (treeSize v) v dir e)
                          dirEntries).
    { rewrite Forall_forall in IH |- *. intros entry Hin.
      apply entryTotal_nonneg; [|now apply Hnn].
      specialize (IH entry Hin). specialize (Hnn entry Hin).
      destruct entry as [| name contents |]; cbn in *; trivial.
      intros dir'. now apply treeSize_nonneg. }
    assert (H0 : 0 <= bound).
    { pose proof (sumZ_map_nonneg _ _ Hpos). lia. }
    apply (bind_world_inv (fun w => Forall (sizeAtMost bound) (stdout w)));
      trivial.
    apply (forEach_world_inv (fun w => Forall (sizeAtMost bound) (stdout w))).
    rewrite Forall_forall in IH |- *. intros entry Hin st w1 Hw1.
    apply loopBody_sizeAtMost; trivial.
    + exact (IH entry Hin).
    + now apply Hnn.
    + pose proof (sumZ_map_upper _ _ _ Hpos Hin). lia.
Qed.

(** X3.  When no file size is negative and the exact total of the root fits in
    an [int64], no line printed during the scan, for a file, a directory or
    the root, shows a size above the size computed for the root. *)
Theorem printed_sizes_at_most_root v dir l w w' size n err :
  sizesNonneg l = true ->
  int64_range (treeSize v dir l) ->
  getDirSize v dir l w = (w', Some (size, n, err)) ->
  exists out,
    stdout (fst (visualise v dir l w)) = (stdout w ++ out)%list /\
    Forall (sizeAtMost size) out.
Proof.
  intros Hnn Hrange E.
  exists (stdout (fst (visualise v dir l emptyWorld))). split.
  - now rewrite (framed_visualise v dir l w).
  - apply getDirSize_size in E. rewrite wrap64_id in E by assumption.
    pose proof (treeSize_nonneg v l Hnn dir) as Hpos.
    pose proof (getDirSize_sizeAtMost v l Hnn dir size emptyWorld
                  ltac:(lia) ltac:(unfold int64_range in Hrange; lia)
                  ltac:(constructor)) as Hwalk.
    unfold visualise, bind.
    destruct (getDirSize v dir l emptyWorld) as [w1 [[[size1 n1] err1]|]] eqn:E1;
      [|exact Hwalk].
    pose proof (getDirSize_err_nil _ _ _ _ _ _ _ _ E1) as ->.
    pose proof (getDirSize_size _ _ _ _ _ _ _ _ E1) as Hsize1.
    rewrite wrap64_id in Hsize1 by assumption.
    destruct (size1 >? sizeThreshold v); [|exact Hwalk].
    cbn. rewrite <- app_assoc. apply Forall_app. split; [exact Hwalk|].
    repeat constructor; unfold sizeAtMost; cbn; lia.
Qed.
End Bounded.

(** ** Entries that leave no trace *)

Section SilentEntries.
Context `{Lib}.
Import Current.

Lemma loopBody_dirSize_range v dir st entry w w1 st1 :
  int64_range (dirSize st) ->
  loopBody (getDirSize v) v dir st entry w = (w1, Some st1) ->
  int64_range (dirSize st1).
Proof.
  intros Hst E.
  rewrite (loopBody_dirSize v dir st entry w w1 st1); trivial.
  - apply wrap64_range.
  - destruct entry as [| name contents |]; cbn; trivial.
    intros. eapply getDirSize_size; eassumption.
Qed.

(** Removing from a listing an entry on which the loop body changes neither
    the loop variables nor standard output changes neither the result nor
    what is printed. *)
Lemma forEach_without_silent v dir entry before after :
  (forall st w, int64_range (dirSize st) ->
                exists w1, loopBody (getDirSize v) v dir st entry w = (w1, Some st)
                           /\ stdout w1 = stdout w) ->
  forall st w,
    int64_range (dirSize st) ->
    snd (forEach (loopBody (getDirSize v) v dir) (before ++ entry :: after) st w)
    = snd (forEach (loopBody (getDirSize v) v dir) (before ++ after) st w)
    /\ stdout (fst (forEach (loopBody (getDirSize v) v dir)
                            (before ++ entry :: after) st w))
       = stdout (fst (forEach (loopBody (getDirSize v) v dir)
                              (before ++ after) st w)).
Proof.
  intros Hsilent.
  induction before as [|x before IH]; intros st w Hst.
  - cbn [app forEach]. unfold bind.
    destruct (Hsilent st w Hst) as (w1 & -> & Hout).
    rewrite (framed_loop v dir after st w1), (framed_loop v dir after st w).
    cbn. now rewrite Hout.
  - cbn [app forEach]. unfold bind.
    destruct (loopBody (getDirSize v) v dir st x w) as [w1 [st1|]] eqn:E;
      [|auto].
    apply IH. exact (loopBody_dirSize_range _ _ _ _ _ _ _ Hst E).
Qed.

Lemma getDirSize_without_silent v dir entry before after w :
  (forall st w, int64_range (dirSize st) ->
                exists w1, loopBody (getDirSize v) v dir st entry w = (w1, Some st)
                           /\ stdout w1 = stdout w) ->
  snd (getDirSize v dir (ReadDir (before ++ entry :: after) None) w)
  = snd (getDirSize v dir (ReadDir (before ++ after) None) w)
  /\ stdout (fst (getDirSize v dir (ReadDir (before ++ entry :: after) None) w))
     = stdout (fst (getDirSize v dir (ReadDir (before ++ after) None) w)).
Proof.
  intros Hsilent. rewrite !getDirSize_readable.
  destruct (forEach_without_silent v dir entry before after Hsilent
              (mkLoop 0 0 false) w ltac:(cbn; unfold int64_range; lia))
    as [Hres Hout].
  unfold bind.
  destruct (forEach _ (before ++ entry :: after) _ w) as [wa [sa|]];
    destruct (forEach _ (before ++ after) _ w) as [wb [sb|]];
    cbn in *; try discriminate; split; congruence.
Qed.

Lemma report_nothing v dir st entry w :
  0 <= sizeThreshold v ->
  int64_range (dirSize st) ->
  report v dir st entry 0 (shouldPrintAClosingNewLine st) w = (w, Some st).
Proof.
  intros Hthr Hst. rewrite report_run.
  unfold reportOut, reportCount, add64.
  replace (0 >? sizeThreshold v) with false
    by (symmetry; rewrite Z.gtb_ltb; apply Z.ltb_ge; lia).
  cbn [andb]. rewrite Z.add_0_r, wrap64_id, app_nil_r by assumption.
  destruct st, w; reflexivity.
Qed.

(** X4.  With a threshold that is not negative, an entry that is neither a
    regular file nor a directory (symlink, device ...) and a directory whose
    listing fails add nothing and print nothing: the parent's result and
    printed lines are those of the listing without the entry. *)
Theorem unreadable_or_irregular_adds_nothing v dir entry before after w :
  0 <= sizeThreshold v ->
  unreadableOrIrregular entry = true ->
  snd (getDirSize v dir (ReadDir (before ++ entry :: after) None) w)
  = snd (getDirSize v dir (ReadDir (before ++ after) None) w)
  /\ stdout (fst (getDirSize v dir (ReadDir (before ++ entry :: after) None) w))
     = stdout (fst (getDirSize v dir (ReadDir (before ++ after) None) w)).
Proof.
  intros Hthr Hentry. apply getDirSize_without_silent. intros st w1 Hst.
  destruct entry as [| name [dirEntries [e|]] | name]; try discriminate.
  - destruct (shouldSkipDir v (Join dir name)) eqn:Hskip.
    + rewrite loopBody_skipped by assumption. eauto.
    + erewrite loopBody_subdir;
        [|exact Hskip | apply getDirSize_unreadable].
      change (if 0 >? 0 then true else shouldPrintAClosingNewLine st)
        with (shouldPrintAClosingNewLine st).
      rewrite report_nothing by trivial. eauto.
  - rewrite loopBody_other, report_nothing by trivial. eauto.
Qed.

(** X5.  A regular file whose [Info] returns an error together with a non-nil
    [FileInfo] is logged in two lines and skipped: the loop variables and
    standard output stay as they were, and the parent's result and printed
    lines are those of the listing without the file, whatever the size in the
    [FileInfo]. *)
Theorem info_error_with_fileinfo_skipped v dir name fi e :
  (forall st w,
      loopBody (getDirSize v) v dir st (Regular name (Some fi) (Some e)) w =
      (mkWorld (stdout w)
         (stderr w
          ++ ["error: could not get info for file " ++ Join dir name ++ ": " ++ e;
              "warning: file " ++ Join dir name
              ++ " will not be included in calculations"]),
       Some st)) /\
  (forall before after w,
      snd (getDirSize v dir
             (ReadDir (before ++ Regular name (Some fi) (Some e) :: after) None) w)
      = snd (getDirSize v dir (ReadDir (before ++ after) None) w)
      /\ stdout (fst (getDirSize v dir
                        (ReadDir (before ++ Regular name (Some fi) (Some e) :: after)
                                 None) w))
         = stdout (fst (getDirSize v dir (ReadDir (before ++ after) None) w))).
Proof.
  split.
  - intros st w. apply loopBody_info_err.
  - intros before after w. apply getDirSize_without_silent. intros st w1 _.
    rewrite loopBody_info_err. eauto.
Qed.
End SilentEntries.

(** ** The diagnostics *)

Section Diagnostics.
Context `{Lib}.
Import Current.

Lemma loopBody_tagged g v dir st entry w :
  (forall name contents w,
      entry = Dir name contents ->
      allTagged w -> allTagged (fst (g (Join dir name) contents w))) ->
  allTagged w -> allTagged (fst (loopBody g v dir st entry w)).
Proof.
  unfold allTagged. intros Hg Hw.
  assert (Hreport : forall entrySize closing w1,
             Forall (fun line => tagged line = true) (stderr w1) ->
             Forall (fun line => tagged line = true)
               (stderr (fst (report v dir st entry entrySize closing w1)))).
  { intros. now rewrite report_run. }
  destruct entry as [name [fi|] [e|] | name contents | name].
  - rewrite loopBody_info_err. cbn. apply Forall_app. split; trivial.
    repeat constructor.
  - rewrite loopBody_file. now apply Hreport.
  - rewrite loopBody_nil_info. assumption.
  - rewrite loopBody_nil_info. assumption.
  - destruct (shouldSkipDir v (Join dir name)) eqn:Hskip.
    + rewrite loopBody_skipped by assumption. cbn. apply Forall_app.
      split; trivial. repeat constructor.
    + specialize (Hg name contents w eq_refl Hw).
      destruct (g (Join dir name) contents w)
        as [w2 [[[size n] [e|]]|]] eqn:E.
      * unfold loopBody, switch; cbn [Name]. rewrite Hskip.
        unfold bind, logPrintf, ret. rewrite E. cbn.
        rewrite <- app_assoc. apply Forall_app. split; trivial.
        repeat constructor.
      * rewrite (loopBody_subdir _ _ _ _ _ _ _ _ _ _ Hskip E).
        now apply Hreport.
      * now rewrite (loopBody_subdir_panic _ _ _ _ _ _ _ _ Hskip E).
  - rewrite loopBody_other. now apply Hreport.
Qed.

Lemma getDirSize_tagged v l :
  forall dir w, allTagged w -> allTagged (fst (getDirSize v dir l w)).
Proof.
  induction l as [dirEntries [e|] IH] using Listing_tree_ind; intros dir w Hw.
  - rewrite getDirSize_unreadable. unfold allTagged. cbn.
    apply Forall_app. split; trivial. repeat constructor.
  - rewrite getDirSize_readable.
    apply (bind_world_inv allTagged); trivial.
    apply (forEach_world_inv allTagged).
    rewrite Forall_forall in IH |- *. intros entry Hin st w1 Hw1.
    apply loopBody_tagged; trivial.
    intros name contents w2 -> Hw2. now apply (IH _ Hin).
Qed.

(** X6.  Every message [visualise] gives to the logger, for whatever failure
    on whatever tree, starts with [error: ] or [warning: ] (on the log it
    follows the date and time the logger writes first); the log is only
    appended to. *)
Theorem visualise_diagnostics_tagged v dir l w :
  exists log,
    stderr (fst (visualise v dir l w)) = (stderr w ++ log)%list /\
    Forall (fun line => tagged line = true) log.
Proof.
  exists (stderr (fst (visualise v dir l emptyWorld))). split.
  - now rewrite (framed_visualise v dir l w).
  - change (allTagged (fst (visualise v dir l emptyWorld))).
    unfold visualise. apply (bind_world_inv allTagged).
    + intros w1. apply getDirSize_tagged.
    + intros [[size n] [e|]] w1 Hw1.
      * unfold allTagged, logPrintf. cbn. apply Forall_app. split; trivial.
        repeat constructor.
      * destruct (size >? sizeThreshold v); exact Hw1.
    + constructor.
Qed.
End Diagnostics.

(** ** When [visualise] returns *)

Section Returns.
Context `{Lib}.
Import Current.

(** X7.  [visualise] returns on exactly the trees in which the walk reaches
    no regular file whose [Info] yields a nil [FileInfo]; on the others it
    panics.  Unreadable directories, ignored directories and entries of other
    kinds never stop it. *)
Theorem visualise_returns_iff v dir l w :
  (reachesNilInfo v dir l = false <-> snd (visualise v dir l w) = Some tt) /\
  (reachesNilInfo v dir l = true <-> snd (visualise v dir l w) = None).
Proof.
  pose proof (getDirSize_panics v l dir w) as Hp.
  unfold visualise, bind.
  destruct (getDirSize v dir l w) as [w1 [[[size n] err]|]] eqn:E; cbn in Hp.
  - pose proof (getDirSize_err_nil _ _ _ _ _ _ _ _ E) as ->.
    assert (Hnot : reachesNilInfo v dir l = false).
    { destruct (reachesNilInfo v dir l); [|reflexivity].
      destruct Hp as [_ Hp]. specialize (Hp eq_refl). discriminate. }
    rewrite Hnot.
    destruct (size >? sizeThreshold v); cbn;
      (split; split; trivial; discriminate).
  - cbn. destruct Hp as [Hp _]. rewrite (Hp eq_refl).
    split; split; trivial; discriminate.
Qed.
End Returns.

(** ** The configuration and [main] *)

Section Configuration.
Context `{Lib}.
Import Current.

(** X8.  A visualiser built by [newVisualiser] has its threshold in the
    [int64] range, and has no ignore-regexp exactly when the pattern is
    empty, in which case no directory is skipped. *)
Theorem newVisualiser_config sizeThreshold ignoreRegexp v :
  newVisualiser sizeThreshold ignoreRegexp = inl v ->
  int64_range (Current.sizeThreshold v) /\
  (Current.ignoreRegexp v = None <-> ignoreRegexp = "") /\
  (ignoreRegexp = "" -> forall path, shouldSkipDir v path = false).
Proof.
  unfold newVisualiser.
  destruct (ParseBigBytes sizeThreshold) as [parsed|e]; [|discriminate].
  destruct (String.eqb ignoreRegexp "") eqn:Hempty.
  - apply String.eqb_eq in Hempty. intros [= <-]. cbn.
    split; [apply wrap64_range|]. repeat split; intros; trivial.
  - apply String.eqb_neq in Hempty.
    destruct (Compile ignoreRegexp) as [re|e]; [|discriminate].
    intros [= <-]. cbn. split; [apply wrap64_range|].
    repeat split; intros; try discriminate; contradiction.
Qed.

(** X9.  When [main] ends through [log.Fatalf], the status is 1, nothing was
    written to standard output, exactly one line was logged, and the file
    system was not looked at. *)
Theorem main_fatal args tree w code :
  snd (main args tree w) = Some (Exited code) ->
  code = 1 /\
  stdout (fst (main args tree w)) = stdout w /\
  (exists line, stderr (fst (main args tree w)) = (stderr w ++ [line])%list) /\
  (forall tree', main args tree' w = main args tree w).
Proof.
  unfold main.
  destruct (newVisualiser (flagString (flag_s args) sizeThresholdDefault)
                          (flagString (flag_i args) ignoreDirRegexpDefault))
    as [v|err].
  - unfold bind.
    destruct (visualise v _ _ w) as [w1 [[]|]]; cbn; discriminate.
  - cbn. intros [= <-]. repeat split; trivial. now exists err.
Qed.

Lemma visualise_same v dir l w :
  Current.ignoreRegexp v = None ->
  visualise v dir l w =
  Earlier.visualise (Earlier.mkVisualiser (Current.sizeThreshold v)) dir l w.
Proof.
  intros Hnil. unfold visualise, Earlier.visualise.
  apply bind_ext; [intros w1; now apply getDirSize_same | reflexivity].
Qed.

(** X10.  Without [-i], or with an empty pattern, the current program is the
    earlier one: [main] leaves the same output and log and ends the same way,
    also when the threshold does not parse. *)
Theorem main_matches_earlier args tree w :
  flagString (flag_i args) ignoreDirRegexpDefault = "" ->
  main args tree w = Earlier.main args tree w.
Proof.
  intros Hi. unfold main, Earlier.main, newVisualiser. rewrite Hi.
  destruct (ParseBigBytes (flagString (flag_s args) sizeThresholdDefault))
    as [parsed|e]; [|reflexivity].
  cbn [String.eqb]. apply bind_ext; [|reflexivity].
  intros w1. now rewrite visualise_same.
Qed.
End Configuration.

(** ** The threshold only decides what is printed *)

Section ThresholdIrrelevant.
Context `{Lib}.
Import Current.

Lemma treeSize_same_regexp v1 v2 l :
  (forall path, shouldSkipDir v1 path = shouldSkipDir v2 path) ->
  forall dir, treeSize v1 dir l = treeSize v2 dir l.
Proof.
  intros Hskip.
  induction l as [dirEntries [e|] IH] using Listing_tree_ind; intros dir;
    cbn [treeSize]; [reflexivity|].
  f_equal. apply map_ext_in. intros entry Hin.
  rewrite Forall_forall in IH. specialize (IH entry Hin).
  destruct entry as [name info err | name contents | name]; cbn in *; trivial.
  rewrite Hskip. destruct (shouldSkipDir v2 (Join dir name)); auto.
Qed.

Lemma reachesNilInfo_same_regexp v1 v2 l :
  (forall path, shouldSkipDir v1 path = shouldSkipDir v2 path) ->
  forall dir, reachesNilInfo v1 dir l = reachesNilInfo v2 dir l.
Proof.
  intros Hskip.
  induction l as [dirEntries [e|] IH] using Listing_tree_ind; intros dir;
    cbn [reachesNilInfo]; [reflexivity|].
  induction IH as [|entry es Hentry _ IHes]; cbn [existsb]; [reflexivity|].
  rewrite IHes. f_equal.
  destruct entry as [name info err | name contents | name]; cbn in *; trivial.
  now rewrite Hskip, Hentry.
Qed.

(** X11.  The threshold decides only what is printed: under two thresholds
    and the same ignore-regexp the walk of a tree panics under both or
    neither, and when it returns, it returns the same size. *)
Theorem size_independent_of_threshold v1 v2 dir l w1 w2 :
  ignoreRegexp v1 = ignoreRegexp v2 ->
  (snd (getDirSize v1 dir l w1) = None <-> snd (getDirSize v2 dir l w2) = None)
  /\ forall size1 n1 err1 size2 n2 err2,
      snd (getDirSize v1 dir l w1) = Some (size1, n1, err1) ->
      snd (getDirSize v2 dir l w2) = Some (size2, n2, err2) ->
      size1 = size2.
Proof.
  intros Hre.
  assert (Hskip : forall path, shouldSkipDir v1 path = shouldSkipDir v2 path).
  { intros path. unfold shouldSkipDir. now rewrite Hre. }
  split.
  - rewrite !getDirSize_panics.
    now rewrite (reachesNilInfo_same_regexp v1 v2 l Hskip dir).
  - intros size1 n1 err1 size2 n2 err2 E1 E2.
    destruct (getDirSize v1 dir l w1) as [w1' r1] eqn:R1.
    destruct (getDirSize v2 dir l w2) as [w2' r2] eqn:R2.
    cbn in E1, E2. subst r1 r2.
    rewrite (getDirSize_size _ _ _ _ _ _ _ _ R1),
            (getDirSize_size _ _ _ _ _ _ _ _ R2).
    now rewrite (treeSize_same_regexp v1 v2 l Hskip dir).
Qed.
End ThresholdIrrelevant.

(** ** The line of a directory *)

Section DirectoryLine.
Context `{Lib}.
Import Current.

(** X12.  For a subdirectory that is not ignored and whose size exceeds the
    threshold, the loop prints, after everything the walk of the subdirectory
    printed, one line with its full path and size; the line is followed by a
    blank line exactly when the walk of the subdirectory reported a printed
    file or the closing flag was already set by an earlier entry of the same
    listing. *)
Theorem directory_line v dir st name contents w w1 size n err :
  shouldSkipDir v (Join dir name) = false ->
  getDirSize v (Join dir name) contents w = (w1, Some (size, n, err)) ->
  sizeThreshold v < size ->
  stdout (fst (loopBody (getDirSize v) v dir st (Dir name contents) w)) =
  (stdout w1
   ++ [Printf false (Join dir name) size]
   ++ (if (n >? 0) || shouldPrintAClosingNewLine st then [Println] else []))%list.
Proof.
  intros Hskip E Hgt.
  pose proof (getDirSize_err_nil _ _ _ _ _ _ _ _ E) as ->.
  rewrite (loopBody_subdir _ _ _ _ _ _ _ _ _ _ Hskip E), report_run.
  cbn [fst stdout]. unfold reportOut. cbn [IsRegular Name andb].
  replace (size >? sizeThreshold v) with true
    by (symmetry; apply Z.gtb_lt; lia).
  now destruct (n >? 0).
Qed.
End DirectoryLine.

(** ** The earlier walk *)

Section EarlierWalk.
Context `{Lib}.

(** X13.  The earlier [getDirSize] never returns a non-nil error, and the
    size it returns is the sum of the sizes of the regular files reached
    without crossing an unreadable directory, reduced to [int64]. *)
Theorem earlier_getDirSize_size dir sizeThreshold l w w' size n err :
  Earlier.getDirSize dir sizeThreshold l w = (w', Some (size, n, err)) ->
  err = None /\
  size = wrap64 (treeSize (Current.mkVisualiser sizeThreshold None) dir l).
Proof.
  rewrite <- (getDirSize_same (Current.mkVisualiser sizeThreshold None) l
                eq_refl dir w).
  intros E. split.
  - exact (getDirSize_err_nil _ _ _ _ _ _ _ _ E).
  - exact (getDirSize_size _ _ _ _ _ _ _ _ E).
Qed.

(** X14.  In the earlier version too every line [visualise] prints, for a
    file, a directory or the root, shows a size strictly above the
    threshold. *)
Theorem earlier_threshold_strict v dir l w :
  exists out,
    stdout (fst (Earlier.visualise v dir l w)) = (stdout w ++ out)%list /\
    Forall (aboveThreshold (Earlier.sizeThreshold v)) out.
Proof.
  destruct v as [sizeThreshold].
  pose (v' := Current.mkVisualiser sizeThreshold None).
  assert (Hsame : forall w, Earlier.visualise (Earlier.mkVisualiser sizeThreshold)
                                              dir l w
                            = Current.visualise v' dir l w).
  { intros w0. symmetry. exact (visualise_same v' dir l w0 eq_refl). }
  exists (stdout (fst (Current.visualise v' dir l emptyWorld))).
  rewrite Hsame. split.
  - now rewrite (framed_visualise v' dir l w).
  - apply (visualise_aboveThreshold v' dir l emptyWorld). constructor.
Qed.
End EarlierWalk.

(** ** The further properties on concrete trees *)

Section FurtherConcrete.
#[local] Existing Instance exampleLib.
Import Current.

Lemma getDirSize_count_witness :
  getDirSize v100 "/root" scenarioA emptyWorld =
  (mkWorld [Println; Printf true "/root/b.txt" (150 * MB)] [],
   Some (200 * MB, 1, None))
  /\ 1 = wrap64 (printedHere v100 scenarioA)
  /\ int64_range 1 /\ int64_range (200 * MB).
Proof.
  split; [reflexivity|].
  apply (getDirSize_count v100 "/root" scenarioA emptyWorld
           (mkWorld [Println; Printf true "/root/b.txt" (150 * MB)] [])
           (200 * MB) 1 None).
  reflexivity.
Defined.

Lemma visualise_prints_each_file_once_witness :
  snd (visualise v100 "/root" grouped emptyWorld) = Some tt
  /\ regularLines (stdout (fst (visualise v100 "/root" grouped emptyWorld))) =
     [Printf true "/root/a/x" (150 * MB); Printf true "/root/b" (150 * MB)].
Proof.
  split; [reflexivity|].
  apply (visualise_prints_each_file_once v100 "/root" grouped emptyWorld
           (fst (visualise v100 "/root" grouped emptyWorld))).
  reflexivity.
Defined.

Lemma printed_sizes_at_most_root_witness :
  sizesNonneg nested = true
  /\ int64_range (treeSize v100 "/root" nested)
  /\ exists out,
      stdout (fst (visualise v100 "/root" nested emptyWorld)) =
      (stdout emptyWorld ++ out)%list
      /\ Forall (sizeAtMost (150 * MB)) out.
Proof.
  assert (Hrange : int64_range (treeSize v100 "/root" nested)).
  { split; [vm_compute; discriminate | vm_compute; reflexivity]. }
  split; [reflexivity|]. split; [exact Hrange|].
  apply (printed_sizes_at_most_root v100 "/root" nested emptyWorld
           (mkWorld [Println; Printf true "/root/d/f" (150 * MB);
                     Printf false "/root/d" (150 * MB); Println] [])
           (150 * MB) 0 None).
  - reflexivity.
  - exact Hrange.
  - reflexivity.
Defined.

Lemma unreadable_or_irregular_adds_nothing_witness :
  0 <= sizeThreshold v100
  /\ snd (getDirSize v100 "/root" withLink emptyWorld) =
     snd (getDirSize v100 "/root"
            (ReadDir [file "a.txt" (150 * MB); file "b.txt" (50 * MB)] None)
            emptyWorld).
Proof.
  assert (Hthr : 0 <= sizeThreshold v100) by (vm_compute; discriminate).
  split; [exact Hthr|].
  apply (unreadable_or_irregular_adds_nothing v100 "/root" (Other "link")
           [file "a.txt" (150 * MB)] [file "b.txt" (50 * MB)] emptyWorld Hthr).
  reflexivity.
Defined.

Lemma newVisualiser_config_witness :
  @newVisualiser parsingLib "100MB" "" =
  inl (@mkVisualiser parsingLib (100 * MB) None)
  /\ int64_range (100 * MB).
Proof.
  split; [reflexivity|].
  apply (@newVisualiser_config parsingLib "100MB" ""
           (@mkVisualiser parsingLib (100 * MB) None)).
  reflexivity.
Defined.

Lemma main_fatal_witness :
  snd (main noFlags treeA emptyWorld) = Some (Exited 1)
  /\ stdout (fst (main noFlags treeA emptyWorld)) = [].
Proof.
  split; [reflexivity|].
  apply (main_fatal noFlags treeA emptyWorld 1).
  reflexivity.
Defined.

Lemma main_matches_earlier_witness :
  flagString (flag_i noFlags) ignoreDirRegexpDefault = ""
  /\ @main parsingLib noFlags treeA emptyWorld =
     @Earlier.main parsingLib noFlags treeA emptyWorld.
Proof.
  split; [reflexivity|].
  apply (@main_matches_earlier parsingLib noFlags treeA emptyWorld).
  reflexivity.
Defined.

Lemma size_independent_of_threshold_witness :
  ignoreRegexp v0 = ignoreRegexp v100
  /\ (snd (getDirSize v0 "/root" grouped emptyWorld) = None <->
      snd (getDirSize v100 "/root" grouped emptyWorld) = None).
Proof.
  split; [reflexivity|].
  apply (size_independent_of_threshold v0 v100 "/root" grouped
           emptyWorld emptyWorld).
  reflexivity.
Defined.

Lemma directory_line_witness :
  shouldSkipDir v100 (Join "/root" "a") = false
  /\ stdout (fst (loopBody (getDirSize v100) v100 "/root" (mkLoop 0 0 false)
                           (folder "a" [file "x" (150 * MB)]) emptyWorld)) =
     [Println; Printf true "/root/a/x" (150 * MB);
      Printf false "/root/a" (150 * MB); Println].
Proof.
  split; [reflexivity|].
  apply (directory_line v100 "/root" (mkLoop 0 0 false) "a"
           (ReadDir [file "x" (150 * MB)] None) emptyWorld
           (mkWorld [Println; Printf true "/root/a/x" (150 * MB)] [])
           (150 * MB) 1 None).
  - reflexivity.
  - reflexivity.
  - vm_compute. reflexivity.
Defined.

Lemma earlier_getDirSize_size_witness :
  Earlier.getDirSize "/root" (100 * MB) scenarioA emptyWorld =
  (mkWorld [Println; Printf true "/root/b.txt" (150 * MB)] [],
   Some (200 * MB, 1, None))
  /\ 200 * MB = wrap64 (treeSize v100 "/root" scenarioA).
Proof.
  split; [reflexivity|].
  apply (earlier_getDirSize_size "/root" (100 * MB) scenarioA emptyWorld
           (mkWorld [Println; Printf true "/root/b.txt" (150 * MB)] [])
           (200 * MB) 1 None).
  reflexivity.
Defined.
End FurtherConcrete.
